(** * The zip combinator of rx/operators/observable/zip.py

    A shallow embedding of [zip] and [_zip_with_list].  The closures that
    [subscribe] creates share the mutable lists [queues] and [is_done] (and,
    in the list variant, the cursor [index]); here that store is an explicit
    state threaded through the callbacks.  The observer handed to
    [subscribe] is a collaborator of the module, so it is represented by the
    sequence of calls the module makes on it ([send], [throw], [close]), in
    the order they are made.

    The module never inspects the values that flow through it, hence the
    development is parametric in the types of values, results and raised
    exceptions. *)

From stdpp Require Import base tactics option numbers list.

Set Default Proof Using "Type".

(** ** Notifications *)

(** What calling a Python function does: it returns or it raises. *)
Inductive outcome (R E : Type) : Type :=
  | Returns (r : R)
  | Raises (ex : E).
Arguments Returns {R E} r.
Arguments Raises {R E} ex.

(** A call made on the downstream observer. *)
Inductive notification (R E : Type) : Type :=
  | Send (r : R)
  | Throw (ex : E)
  | Close.
Arguments Send {R E} r.
Arguments Throw {R E} ex.
Arguments Close {R E}.

(** A notification pushed by source [i] into the callbacks that [func i]
    registered with [subscribe_]. *)
Inductive event (V E : Type) : Type :=
  | OnNext (i : nat) (x : V)
  | OnError (i : nat) (ex : E)
  | OnCompleted (i : nat).
Arguments OnNext {V E} i x.
Arguments OnError {V E} i ex.
Arguments OnCompleted {V E} i.

Definition origin {V E} (ev : event V E) : nat :=
  match ev with
  | OnNext i _ | OnError i _ | OnCompleted i => i
  end.

Definition is_send {R E} (o : notification R E) : bool :=
  match o with Send _ => true | _ => false end.

(** The values sent downstream, in order. *)
Definition sends {R E} (out : list (notification R E)) : list R :=
  omap (λ o, match o with Send r => Some r | _ => None end) out.

(** [all(xs)] of Python on a list of booleans. *)
Definition all (xs : list bool) : bool := forallb id xs.

(** [enumerate(xs)] *)
Definition enumerate {A} (xs : list A) : list (nat * A) :=
  zip (seq 0 (length xs)) xs.

(** ** The N-ary path *)

Module Nary.
Section nary.
Context {V R E : Type}.
(** What calling [result_mapper] on the unpacked [queued_values] does. *)
Variable result_mapper : list V → outcome R E.

(** The store shared by the closures of one subscription. *)
Record state : Type := State {
  queues : list (list V);
  is_done : list bool
}.

(** [queues = [[] for _ in range(n)]; is_done = [False] * n] *)
Definition initial (n : nat) : state :=
  State (replicate n []) (replicate n false).

(** [all([len(q) for q in queues])]: a length is truthy when non-zero. *)
Definition all_queued (qs : list (list V)) : bool :=
  all (map (λ q, negb (length q =? 0)) qs).

(** [[x.pop(0) for x in queues]]: the popped heads and the queues that
    remain.  It is only run under [all_queued], where no [pop(0)] can
    fail. *)
Definition pop_heads (qs : list (list V)) : list V * list (list V) :=
  (omap head qs, map tail qs).

(** [all([x for j, x in enumerate(is_done) if j != i])] *)
Definition others_done (i : nat) (flags : list bool) : bool :=
  all (map snd (List.filter (λ p, negb (fst p =? i)) (enumerate flags))).

(** [def next(i)] *)
Definition next (i : nat) (st : state) : state * list (notification R E) :=
  if all_queued (queues st) then
    let '(queued_values, qs) := pop_heads (queues st) in
    let st' := State qs (is_done st) in
    match result_mapper queued_values with
    | Raises ex => (st', [Throw ex])
    | Returns res => (st', [Send res])
    end
  else if others_done i (is_done st) then (st, [Close])
  else (st, []).

(** [def done(i)] *)
Definition done (i : nat) (st : state) : state * list (notification R E) :=
  let st' := State (queues st) (<[i := true]> (is_done st)) in
  if all (is_done st') then (st', [Close]) else (st', []).

(** [def send(x)] inside [func(i)] *)
Definition send (i : nat) (x : V) (st : state)
  : state * list (notification R E) :=
  next i (State (alter (λ q, q ++ [x]) i (queues st)) (is_done st)).

(** [for idx in range(n): func(idx)] registers callbacks for the indices
    below [n] and for no other: a notification tagged with another index
    has no receiver. *)
Definition subscribed (n : nat) (i : nat) : bool := bool_decide (i < n).

(** One notification from a source, dispatched to the callbacks given to
    [subscribe_]: [send], [observer.throw] and [lambda: done(i)]. *)
Definition deliver (n : nat) (st : state) (ev : event V E)
  : state * list (notification R E) :=
  if subscribed n (origin ev) then
    match ev with
    | OnNext i x => send i x st
    | OnError _ ex => (st, [Throw ex])
    | OnCompleted i => done i st
    end
  else (st, []).

(** The notifications of a whole trace, from a given store. *)
Fixpoint run (n : nat) (st : state) (tr : list (event V E))
  : state * list (notification R E) :=
  match tr with
  | [] => (st, [])
  | ev :: tr' =>
      let '(st1, out1) := deliver n st ev in
      let '(st2, out2) := run n st1 tr' in
      (st2, out1 ++ out2)
  end.

(** What an observer subscribed to the zip of [n] sources is
    called with while the sources push [tr]. *)
Definition observed (n : nat) (tr : list (event V E))
  : list (notification R E) :=
  snd (run n (initial n) tr).

End nary.
End Nary.

(** ** The path taken for one source and one list: [_zip_with_list] *)

Module ListZip.
Section list_zip.
Context {V R E : Type}.
(** What calling [result_mapper(left, right)] does. *)
Variable result_mapper : list V → outcome R E.
(** The list operand. *)
Variable second : list V.

(** A notification pushed by [first] into the callbacks given to
    [first.subscribe_]. *)
Inductive input : Type :=
  | Value (left_ : V)
  | Failure (ex : E)
  | Completion.

(** [def send(left)]; the store is the [nonlocal index] ([left] and
    [right] are constructors of the standard library, hence the
    underscores).  The lookup
    [second[index]] is made under [index < length], where it cannot
    fail. *)
Definition send (left_ : V) (index : nat) : nat * list (notification R E) :=
  if index <? length second then
    match second !! index with
    | Some right_ =>
        let index := index + 1 in
        match result_mapper [left_; right_] with
        | Raises ex => (index, [Throw ex])
        | Returns result => (index, [Send result])
        end
    | None => (index, [])
    end
  else (index, [Close]).

(** [first.subscribe_(send, observer.throw, observer.close, scheduler)] *)
Definition deliver (index : nat) (ev : input)
  : nat * list (notification R E) :=
  match ev with
  | Value left_ => send left_ index
  | Failure ex => (index, [Throw ex])
  | Completion => (index, [Close])
  end.

Fixpoint run (index : nat) (tr : list input)
  : nat * list (notification R E) :=
  match tr with
  | [] => (index, [])
  | ev :: tr' =>
      let '(index1, out1) := deliver index ev in
      let '(index2, out2) := run index1 tr' in
      (index2, out1 ++ out2)
  end.

(** [index = 0] at subscription. *)
Definition observed (tr : list input) : list (notification R E) :=
  snd (run 0 tr).

End list_zip.
Arguments Value {V E} left_.
Arguments Failure {V E} ex.
Arguments Completion {V E}.
End ListZip.

(** ** The entry point [zip] and the Python objects it is called with *)

Module Py.

(** The objects that matter to the choice of path and to the default
    [result_mapper]. *)
#[warnings="-register-all"] Inductive object : Type :=
  | None_
  | Int (z : Z)
  | List (items : list object).

Inductive exception : Type :=
  | TypeError
  | UserError (payload : object).

(** A callable passed as [result_mapper], or the builtin [list] that
    replaces a missing one on the N-ary path. *)
Inductive callable : Type :=
  | builtin_list
  | Function (body : list object → outcome object exception).

(** [list()], [list(iterable)]; [list] of a non-iterable and [list] of
    two or more positional arguments raise [TypeError]. *)
Definition call_list (args : list object) : outcome object exception :=
  match args with
  | [] => Returns (List [])
  | [List items] => Returns (List items)
  | _ => Raises TypeError
  end.

(** The call of [f] on unpacked [args], where [f] may be [None], which is
    not callable. *)
Definition call (f : option callable) (args : list object)
  : outcome object exception :=
  match f with
  | None => Raises TypeError
  | Some builtin_list => call_list args
  | Some (Function body) => body args
  end.

(** [result_mapper or list]: [None] is falsy, a function is truthy. *)
Definition or_list (result_mapper : option callable) : callable :=
  match result_mapper with
  | Some f => f
  | None => builtin_list
  end.

(** An argument of [zip]: an observable, or an [Iterable] such as a
    list. *)
Inductive operand : Type :=
  | AsyncSource
  | FiniteSequence (items : list object).

(** The observable that [zip] returns, with the variables its
    [subscribe] closes over. *)
Inductive observable : Type :=
  | ZipSources (n : nat) (result_mapper : option callable)
  | ZipWithList (second : list object) (result_mapper : option callable).

(** [def zip] with its positional [args] and the keyword
    [result_mapper=None]: two arguments of which the second is an
    [Iterable] go to [_zip_with_list], with [result_mapper] as it was
    given; only then is a missing [result_mapper] replaced by [list]. *)
Definition zip (args : list operand) (result_mapper : option callable)
  : observable :=
  match args with
  | [_; FiniteSequence second] => ZipWithList second result_mapper
  | _ => ZipSources (length args) (Some (or_list result_mapper))
  end.

(** What an observer of [zip(...)] is called with: on the N-ary path
    while the sources push [tr], on the list path while [first] pushes
    [ins]. *)
Definition observed (o : observable)
    (tr : list (event object exception))
    (ins : list (@ListZip.input object exception))
  : list (notification object exception) :=
  match o with
  | ZipSources n result_mapper => Nary.observed (call result_mapper) n tr
  | ZipWithList second result_mapper =>
      ListZip.observed (call result_mapper) second ins
  end.

(** The default combiner as the specification words it: the positional
    values collected, in order and unchanged, into one sequence. *)
Definition collect (args : list object) : object := List args.

End Py.

(** ** Sources and their traces *)

Section traces.
Context {V E : Type}.

(** The values that source [i] has pushed in [tr]. *)
Definition received (i : nat) (tr : list (event V E)) : list V :=
  omap (λ ev, match ev with
              | OnNext j x => if j =? i then Some x else None
              | _ => None
              end) tr.

(** The values received from each of [n] sources. *)
Definition histories (n : nat) (tr : list (event V E)) : list (list V) :=
  map (λ i, received i tr) (seq 0 n).

(** The notifications of source [i] in [tr]. *)
Definition emitted_by (i : nat) (tr : list (event V E)) : list (event V E) :=
  List.filter (λ ev, origin ev =? i) tr.

(** [tr] is an interleaving in which source [i] pushes the values
    [ss !! i] and then completes, for every [i]. *)
Definition plays (ss : list (list V)) (tr : list (event V E)) : Prop :=
  ∀ i s, ss !! i = Some s →
    emitted_by i tr = map (OnNext i) s ++ [OnCompleted i].

(** No source pushes a value after its own completion. *)
Definition silent_once_completed (tr : list (event V E)) : Prop :=
  ∀ pre i x post, tr = pre ++ OnNext i x :: post → OnCompleted i ∉ pre.

(** The length of the shortest sequence. *)
Definition min_length (ss : list (list V)) : nat :=
  match ss with
  | [] => 0
  | s :: ss' => foldr (λ s' m, length s' `min` m) (length s) ss'
  end.

(** The values at position [k] of each sequence, in order. *)
Definition column (k : nat) (ss : list (list V)) : list V :=
  omap (λ s, s !! k) ss.

(** The first [m] columns. *)
Definition tuples (m : nat) (ss : list (list V)) : list (list V) :=
  map (λ k, column k ss) (seq 0 m).

End traces.

(** The result of a call that returned. *)
Definition returned {R E} (o : outcome R E) : option R :=
match o with Returns r => Some r | Raises _ => None end.

(** ** The relation between the queues and what the sources have pushed *)

Section buffers.
Context {V : Type}.

(** After [m] tuples have been popped, queue [i] holds what source [i] has
    pushed beyond its first [m] values, every source has pushed at least
    [m] values and some source exactly [m]. *)
Definition buffered (m : nat) (hs qs : list (list V)) : Prop :=
  qs = map (drop m) hs ∧
  (∀ j h, hs !! j = Some h → m ≤ length h) ∧
  (∃ j h, hs !! j = Some h ∧ length h = m).

(** Some source has completed with nothing left in its queue: no tuple can
    be formed any more. *)
Definition starved (st : @Nary.state V) : Prop :=
  ∃ j, Nary.is_done st !! j = Some true ∧ Nary.queues st !! j = Some [].

End buffers.

(** The notification that [next] makes of the outcome of [result_mapper]. *)
Definition forward {R E} (o : outcome R E) : notification R E :=
  match o with
  | Returns res => Send res
  | Raises ex => Throw ex
  end.

(** No value is sent after a completion. *)
Definition closes_last {R E} (out : list (notification R E)) : Prop :=
  ∀ pre post, out = pre ++ Close :: post → ∀ r, Send r ∉ post.

(** ** Concrete sources and combiners *)

Module Scenario.

Inductive error : Type := ValueError.

(** [lambda *xs: sum(xs)] *)
Definition sum (vs : list Z) : outcome Z error :=
  Returns (foldr Z.add 0%Z vs).

(** A combiner that raises on a tuple that starts with [0] and sums the
    others. *)
Definition fussy (vs : list Z) : outcome Z error :=
  match vs with
  | 0%Z :: _ => Raises ValueError
  | _ => sum vs
  end.

(** Source 0 pushes 1, 2, 3 and source 1 pushes 10, 20; both complete. *)
Definition interleaved : list (event Z error) :=
  [OnNext 0 1%Z; OnNext 1 10%Z; OnNext 0 2%Z; OnNext 0 3%Z;
   OnCompleted 0; OnNext 1 20%Z; OnCompleted 1].

End Scenario.

(** ** Failures and what the list path is fed *)

(** The failures forwarded downstream, in order. *)
Definition throws {R E} (out : list (notification R E)) : list E :=
  omap (λ o, match o with Throw ex => Some ex | _ => None end) out.

(** The failures that the [n] subscribed sources signal in [tr], in
    order. *)
Definition errors {V E} (n : nat) (tr : list (event V E)) : list E :=
  omap (λ ev, match ev with
              | OnError i ex => if Nary.subscribed n i then Some ex else None
              | _ => None
              end) tr.

(** What the combiner made of the tuples, as the observer sees it: the
    results sent and the failures forwarded, in order. *)
Definition outcomes {R E} (out : list (notification R E))
  : list (outcome R E) :=
  omap (λ o, match o with
             | Send r => Some (Returns r)
             | Throw ex => Some (Raises ex)
             | Close => None
             end) out.

Definition is_error {V E} (ev : event V E) : bool :=
  match ev with OnError _ _ => true | _ => false end.

(** [tr] without the failures of the sources. *)
Definition without_errors {V E} (tr : list (event V E)) : list (event V E) :=
  List.filter (λ ev, negb (is_error ev)) tr.

(** The values that the source of the list path pushes in [tr]. *)
Definition pushed {V E} (tr : list (@ListZip.input V E)) : list V :=
  omap (λ ev, match ev with ListZip.Value left_ => Some left_ | _ => None end)
    tr.

(** The notification made of the value [left_] met with the item
    [right_]. *)
Definition paired {V R E} (result_mapper : list V → outcome R E)
    (left_ right_ : V) : notification R E :=
  forward (result_mapper [left_; right_]).

(** * Properties *)

(** ** Python's [all] and the two guards of [next] *)

Lemma all_spec (xs : list bool) :
  all xs = true ↔ ∀ j b, xs !! j = Some b → b = true.
Proof.
  unfold all. induction xs as [|b xs IH]; simpl.
  - split; [intros _ j b Hj; by destruct j|done].
  - rewrite andb_true_iff, IH. split.
    + intros [Hb Hxs] [|j] c Hj; simpl in Hj; [by simplify_eq|eauto].
    + intros H. split; [apply (H 0); done|].
      intros j c Hj. by apply (H (S j)).
Qed.

Lemma all_queued_spec {V} (qs : list (list V)) :
  Nary.all_queued qs = true ↔ ∀ j q, qs !! j = Some q → q ≠ [].
Proof.
  unfold Nary.all_queued. rewrite all_spec. split.
  - intros H j q Hq ->.
    specialize (H j false). rewrite list_lookup_fmap, Hq in H.
    by specialize (H eq_refl).
  - intros H j b Hj. rewrite list_lookup_fmap in Hj.
    destruct (qs !! j) as [q|] eqn:Hq; simplify_eq/=.
    specialize (H j q Hq). by destruct q.
Qed.

Lemma enumerate_others_spec (i a : nat) (flags : list bool) :
  all (map snd (List.filter (λ p, negb (fst p =? i))
                  (zip (seq a (length flags)) flags))) = true
  ↔ ∀ j b, flags !! j = Some b → a + j ≠ i → b = true.
Proof.
  revert a. induction flags as [|c flags IH]; intros a; simpl.
  - split; [intros _ j b Hj; by destruct j|done].
  - destruct (Nat.eqb_spec a i) as [->|Hne]; simpl.
    + rewrite IH. split.
      * intros H [|j] b Hj Hi; simpl in Hj; [lia|].
        apply (H j b Hj). lia.
      * intros H j b Hj Hi. apply (H (S j) b Hj). lia.
    + unfold all in *. simpl. rewrite andb_true_iff, IH. split.
      * intros [Hc H] [|j] b Hj Hi; simpl in Hj; [by simplify_eq|].
        apply (H j b Hj). lia.
      * intros H. split; [apply (H 0 c eq_refl); lia|].
        intros j b Hj Hi. apply (H (S j) b Hj). lia.
Qed.

Lemma others_done_spec (i : nat) (flags : list bool) :
  Nary.others_done i flags = true
  ↔ ∀ j b, flags !! j = Some b → j ≠ i → b = true.
Proof. unfold Nary.others_done, enumerate. apply enumerate_others_spec. Qed.

(** ** Traces *)

Section run_facts.
Context {V R E : Type}.
Variable result_mapper : list V → outcome R E.

Lemma run_app n (st : @Nary.state V) tr1 tr2 :
  Nary.run result_mapper n st (tr1 ++ tr2) =
    let '(st1, out1) := Nary.run result_mapper n st tr1 in
    let '(st2, out2) := Nary.run result_mapper n st1 tr2 in
    (st2, out1 ++ out2).
Proof.
  revert st. induction tr1 as [|ev tr1 IH]; intros st; simpl.
  - by destruct (Nary.run result_mapper n st tr2).
  - destruct (Nary.deliver result_mapper n st ev) as [st1 out1]. rewrite IH.
    destruct (Nary.run result_mapper n st1 tr1) as [st2 out2].
    destruct (Nary.run result_mapper n st2 tr2) as [st3 out3]. by rewrite app_assoc.
Qed.

Lemma run_snoc n (st : @Nary.state V) tr ev :
  Nary.run result_mapper n st (tr ++ [ev]) =
    let '(st1, out1) := Nary.run result_mapper n st tr in
    let '(st2, out2) := Nary.deliver result_mapper n st1 ev in
    (st2, out1 ++ out2).
Proof.
  rewrite run_app. destruct (Nary.run result_mapper n st tr) as [st1 out1]. simpl.
  destruct (Nary.deliver result_mapper n st1 ev) as [st2 out2]. by rewrite app_nil_r.
Qed.

End run_facts.

(** ** What the sources have pushed *)

Section history_facts.
Context {V E : Type}.
Implicit Types (tr : list (event V E)) (hs ss qs : list (list V)).

Lemma received_snoc i tr ev :
  received i (tr ++ [ev]) =
    received i tr ++
      match ev with
      | OnNext j x => if j =? i then [x] else []
      | _ => []
      end.
Proof.
  unfold received. rewrite omap_app. f_equal.
  destruct ev as [j x| |]; simpl; [|done..]. by destruct (j =? i).
Qed.

Lemma length_histories n tr : length (histories n tr) = n.
Proof. unfold histories. by rewrite length_map, length_seq. Qed.

Lemma histories_lookup n tr i :
  i < n → histories n tr !! i = Some (received i tr).
Proof.
  intros Hi. unfold histories.
  change (map ?f ?l) with (f <$> l).
  by rewrite list_lookup_fmap, lookup_seq_lt.
Qed.

Lemma histories_lookup_inv n tr i h :
  histories n tr !! i = Some h → i < n ∧ h = received i tr.
Proof.
  intros Hh. assert (i < n) as Hi.
  { apply lookup_lt_Some in Hh. by rewrite length_histories in Hh. }
  rewrite histories_lookup in Hh by done. by simplify_eq.
Qed.

Lemma histories_nil n : histories n ([] : list (event V E)) = replicate n [].
Proof.
  apply list_eq; intros i. destruct (decide (i < n)) as [Hi|Hi].
  - rewrite histories_lookup by done. by rewrite lookup_replicate_2.
  - rewrite !lookup_ge_None_2; [done|rewrite length_replicate; lia|].
    rewrite length_histories; lia.
Qed.

Lemma histories_snoc_next n tr i x :
  histories n (tr ++ [OnNext i x]) = alter (λ q, q ++ [x]) i (histories n tr).
Proof.
  apply list_eq; intros j. destruct (decide (j < n)) as [Hj|Hj].
  - rewrite histories_lookup by done. rewrite received_snoc.
    destruct (decide (i = j)) as [->|Hne].
    + rewrite list_lookup_alter_eq, histories_lookup by done.
      by rewrite Nat.eqb_refl.
    + rewrite list_lookup_alter_ne, histories_lookup by done.
      destruct (Nat.eqb_spec i j); [done|]. by rewrite app_nil_r.
  - rewrite !lookup_ge_None_2; [done| |].
    + rewrite length_alter, length_histories; lia.
    + rewrite length_histories; lia.
Qed.

Lemma histories_snoc_silent n tr ev :
  (∀ i x, ev ≠ OnNext i x) →
  histories n (tr ++ [ev]) = histories n tr.
Proof.
  intros Hev. unfold histories. apply map_ext; intros i.
  rewrite received_snoc. destruct ev; [by edestruct Hev|..]; by rewrite app_nil_r.
Qed.

(** ** Columns of aligned values *)

Lemma tuples_S m hs : tuples (S m) hs = tuples m hs ++ [column m hs].
Proof. unfold tuples. by rewrite seq_S, map_app. Qed.

Lemma length_tuples m hs : length (tuples m hs) = m.
Proof. unfold tuples. by rewrite length_map, length_seq. Qed.

Lemma column_alter_app k i x hs :
  (∀ j h, hs !! j = Some h → k < length h) →
  column k (alter (λ q, q ++ [x]) i hs) = column k hs.
Proof.
  unfold column. revert i. induction hs as [|h hs IH]; intros i Hlen; [done|].
  assert (∀ j h', hs !! j = Some h' → k < length h') as Hlen'.
  { intros j h' Hj. by apply (Hlen (S j)). }
  pose proof (Hlen 0 h eq_refl) as Hh.
  destruct i as [|i]; simpl.
  - by rewrite lookup_app_l.
  - change (list_alter ?f i hs) with (alter f i hs). by rewrite IH.
Qed.

Lemma tuples_alter_app m i x hs :
  (∀ j h, hs !! j = Some h → m ≤ length h) →
  tuples m (alter (λ q, q ++ [x]) i hs) = tuples m hs.
Proof.
  intros Hlen. unfold tuples. apply map_ext_in; intros k Hk.
  apply in_seq in Hk. apply column_alter_app.
  intros j h Hj. specialize (Hlen j h Hj). lia.
Qed.

Lemma column_heads m hs : omap head (map (drop m) hs) = column m hs.
Proof.
  unfold column. induction hs as [|h hs IH]; [done|]. simpl.
  rewrite head_lookup, lookup_drop, Nat.add_0_r.
  destruct (h !! m); simpl; [f_equal|]; apply IH.
Qed.

Lemma drop_tails m hs : map tail (map (drop m) hs) = map (drop (S m)) hs.
Proof.
  rewrite map_map. apply map_ext; intros h.
  revert h. induction m as [|m IH]; intros [|v h]; simpl; done.
Qed.

Lemma column_full k ss :
  (∀ j s, ss !! j = Some s → k < length s) →
  Forall2 (λ s v, s !! k = Some v) ss (column k ss).
Proof.
  unfold column. induction ss as [|s ss IH]; intros Hlen; [constructor|].
  simpl. destruct (lookup_lt_is_Some_2 s k) as [v Hv].
  { by apply (Hlen 0). }
  rewrite Hv. constructor; [done|]. apply IH.
  intros j s' Hj. by apply (Hlen (S j)).
Qed.

Lemma column_unique k ss vs :
  Forall2 (λ s v, s !! k = Some v) ss vs → vs = column k ss.
Proof.
  unfold column. induction 1 as [|s v ss vs Hv _ IH]; [done|].
  simpl. by rewrite Hv, IH.
Qed.

Lemma min_length_le (ss : list (list V)) j s :
  ss !! j = Some s → min_length ss ≤ length s.
Proof.
  destruct ss as [|s0 ss]; [done|]. simpl.
  revert j s0. induction ss as [|s1 ss IH]; intros j s0 Hj; simpl.
  - destruct j; simplify_eq/=; lia.
  - destruct j as [|[|j]]; simpl in Hj.
    + simplify_eq. specialize (IH 0 s eq_refl). lia.
    + simplify_eq. lia.
    + specialize (IH (S j) s0 Hj). lia.
Qed.

Lemma min_length_attained (ss : list (list V)) :
  ss ≠ [] → ∃ j s, ss !! j = Some s ∧ length s = min_length ss.
Proof.
  destruct ss as [|s0 ss]; [done|]. intros _. simpl.
  revert s0. induction ss as [|s1 ss IH]; intros s0; simpl.
  - by exists 0, s0.
  - destruct (IH s0) as (j & s & Hj & Hs).
    destruct (decide (length s1 ≤ length s)).
    + exists 1, s1. split; [done|]. lia.
    + destruct j as [|j]; [exists 0, s|exists (S (S j)), s];
        (split; [done|lia]).
Qed.

Lemma buffered_min_length m hs qs : buffered m hs qs → m = min_length hs.
Proof.
  intros (_ & Hle & j & h & Hj & Hm).
  assert (hs ≠ []) as Hne by (intros ->; done).
  destruct (min_length_attained hs Hne) as (j' & h' & Hj' & Hh').
  pose proof (min_length_le hs j h Hj). pose proof (Hle j' h' Hj'). lia.
Qed.

End history_facts.

(** ** One step of the N-ary state machine *)

Section step_facts.
Context {V R E : Type}.
Variable result_mapper : list V → outcome R E.
Implicit Types (st : @Nary.state V) (hs qs : list (list V)).

Lemma all_queued_false qs :
  Nary.all_queued qs = false → ∃ j, qs !! j = Some [].
Proof.
  unfold Nary.all_queued, all.
  induction qs as [|q qs IH]; simpl; [done|].
  destruct q as [|v q]; simpl.
  - intros _. by exists 0.
  - intros Hqs. destruct (IH Hqs) as [j Hj]. by exists (S j).
Qed.

Lemma lookup_map_drop m hs j :
  map (drop m) hs !! j = drop m <$> hs !! j.
Proof. change (map ?f ?l) with (f <$> l). apply list_lookup_fmap. Qed.

Lemma alter_map_drop m i x hs :
  (∀ j h, hs !! j = Some h → m ≤ length h) →
  alter (λ q, q ++ [x]) i (map (drop m) hs) =
    map (drop m) (alter (λ q, q ++ [x]) i hs).
Proof.
  intros Hlen. change (map ?f ?l) with (f <$> l).
  symmetry. apply list_fmap_alter.
  apply Forall_lookup; intros j h Hj. apply drop_app_le. eauto.
Qed.

Lemma next_forward i st :
  Nary.all_queued (Nary.queues st) = true →
  Nary.next result_mapper i st =
    (Nary.State (map tail (Nary.queues st)) (Nary.is_done st),
     [forward (result_mapper (omap head (Nary.queues st)))]).
Proof.
  intros Hall. unfold Nary.next, Nary.pop_heads. rewrite Hall.
  by destruct (result_mapper _).
Qed.

Lemma next_idle i st :
  Nary.all_queued (Nary.queues st) = false →
  Nary.next result_mapper i st =
    (st, if Nary.others_done i (Nary.is_done st) then [Close] else []).
Proof.
  intros Hall. unfold Nary.next. rewrite Hall.
  by destruct (Nary.others_done _ _).
Qed.

(** A value from source [i]: either a tuple is popped and forwarded, or
    the queues keep everything and at most a completion is forwarded. *)
Lemma send_buffered m hs i x st :
  buffered m hs (Nary.queues st) →
  let hs' := alter (λ q, q ++ [x]) i hs in
  let st' := fst (Nary.send result_mapper i x st) in
  let out := snd (Nary.send result_mapper i x st) in
  Nary.is_done st' = Nary.is_done st ∧
  ((buffered (S m) hs' (Nary.queues st') ∧
    out = [forward (result_mapper (column m hs'))]) ∨
   (buffered m hs' (Nary.queues st') ∧ (out = [Close] ∨ out = []))).
Proof.
  intros (Hqs & Hle & j0 & h0 & Hj0 & Hh0). simpl.
  unfold Nary.send. rewrite Hqs, alter_map_drop by done.
  set (hs' := alter (λ q, q ++ [x]) i hs).
  assert (∀ j h, hs' !! j = Some h → m ≤ length h) as Hle'.
  { intros j h. unfold hs'. destruct (decide (i = j)) as [->|Hne].
    - rewrite list_lookup_alter_eq. destruct (hs !! j) as [h'|] eqn:Hj; [|done].
      intros [= <-]. rewrite length_app. specialize (Hle j h' Hj). lia.
    - rewrite list_lookup_alter_ne by done. apply Hle. }
  destruct (Nary.all_queued (map (drop m) hs')) eqn:Hall.
  - rewrite next_forward by done. simpl. split; [done|]. left.
    rewrite drop_tails, column_heads. split; [|done].
    rewrite all_queued_spec in Hall.
    assert (∀ j h, hs' !! j = Some h → S m ≤ length h) as Hlt.
    { intros j h Hj. specialize (Hle' j h Hj).
      specialize (Hall j (drop m h)). rewrite lookup_map_drop, Hj in Hall.
      specialize (Hall eq_refl).
      destruct (decide (length h = m)) as [Heq|]; [|lia].
      rewrite drop_ge in Hall by lia. done. }
    split; [done|]. split; [done|].
    destruct (decide (i = j0)) as [->|Hne].
    + exists j0, (h0 ++ [x]). unfold hs'.
      rewrite list_lookup_alter_eq, Hj0. split; [done|].
      rewrite length_app. simpl. lia.
    + specialize (Hlt j0 h0). unfold hs' in Hlt.
      rewrite list_lookup_alter_ne in Hlt by done. specialize (Hlt Hj0). lia.
  - rewrite next_idle by done. simpl. split; [done|]. right.
    split; [|by destruct (Nary.others_done _ _); auto].
    split; [done|]. split; [done|].
    destruct (all_queued_false _ Hall) as [j Hj].
    rewrite lookup_map_drop in Hj.
    destruct (hs' !! j) as [h|] eqn:Hh; [|done]. simpl in Hj.
    exists j, h. split; [done|]. specialize (Hle' j h Hh).
    assert (length (drop m h) = 0) as Hlen.
    { injection Hj as ->. done. }
    rewrite length_drop in Hlen. lia.
Qed.

End step_facts.

(** ** The invariant of a subscription *)

Section invariant.
Context {V R E : Type}.
Variable result_mapper : list V → outcome R E.
Implicit Types (st : @Nary.state V) (tr : list (event V E)).

Lemma alter_beyond {A} (f : A → A) (l : list A) i :
  length l ≤ i → alter f i l = l.
Proof.
  intros Hi. apply list_eq; intros j. destruct (decide (i = j)) as [->|Hne].
  - rewrite list_lookup_alter_eq. by rewrite lookup_ge_None_2.
  - by rewrite list_lookup_alter_ne.
Qed.

Lemma sends_app (out1 out2 : list (notification R E)) :
  sends (out1 ++ out2) = sends out1 ++ sends out2.
Proof. apply omap_app. Qed.

Lemma sends_forward (o : outcome R E) :
  sends [forward o] = option_list (returned o).
Proof. by destruct o. Qed.

Lemma done_queues i st :
  Nary.queues (fst (Nary.done (R:=R) (E:=E) i st)) = Nary.queues st.
Proof. unfold Nary.done. by destruct (all _). Qed.

Lemma done_sends i st : sends (snd (Nary.done (R:=R) (E:=E) i st)) = [].
Proof. unfold Nary.done. by destruct (all _). Qed.

Lemma initial_buffered n :
  0 < n → buffered 0 (replicate n []) (replicate n ([] : list V)).
Proof.
  intros Hn. split; [|split].
  - induction n as [|n IH]; [done|]. simpl. f_equal.
    destruct n; [done|]. apply IH. lia.
  - intros j h _. lia.
  - exists 0, []. split; [|done]. by apply lookup_replicate_2.
Qed.

(** Whatever the sources push, the queues hold the values beyond the
    tuples already popped, and the values sent so far are the results of
    [result_mapper] on those tuples, for those on which it returned. *)
Lemma run_buffered n tr :
  0 < n →
  ∃ m,
    buffered m (histories n tr)
      (Nary.queues (fst (Nary.run result_mapper n (Nary.initial n) tr))) ∧
    sends (snd (Nary.run result_mapper n (Nary.initial n) tr)) =
      omap (λ vs, returned (result_mapper vs)) (tuples m (histories n tr)).
Proof.
  intros Hn. induction tr as [|ev tr IH] using rev_ind.
  - exists 0. simpl. rewrite histories_nil. split; [|done].
    by apply initial_buffered.
  - destruct IH as (m & Hbuf & Hsends). rewrite run_snoc.
    destruct (Nary.run result_mapper n (Nary.initial n) tr) as [st out].
    simpl in Hbuf, Hsends.
    destruct (Nary.deliver result_mapper n st ev) as [st' out'] eqn:Hstep.
    simpl. rewrite sends_app, Hsends. unfold Nary.deliver in Hstep.
    destruct (Nary.subscribed n (origin ev)) eqn:Hsub.
    + destruct ev as [i x|i ex|i].
      * rewrite histories_snoc_next.
        pose proof (send_buffered result_mapper m _ i x st Hbuf) as Hsend.
        rewrite Hstep in Hsend. simpl in Hsend.
        destruct Hbuf as (_ & Hle & _).
        destruct Hsend as [_ [[Hbuf' ->]|[Hbuf' Hout]]].
        -- exists (S m). split; [done|].
           rewrite tuples_S, omap_app, tuples_alter_app by done.
           f_equal. rewrite sends_forward. simpl.
           by destruct (returned _).
        -- exists m. split; [done|]. rewrite tuples_alter_app by done.
           destruct Hout as [-> | ->]; simpl; by rewrite app_nil_r.
      * rewrite histories_snoc_silent by done. simplify_eq.
        exists m. split; [done|]. simpl. by rewrite app_nil_r.
      * rewrite histories_snoc_silent by done.
        pose proof (done_queues i st) as Hq. pose proof (done_sends i st) as Hs.
        rewrite Hstep in Hq, Hs. simpl in Hq, Hs.
        exists m. rewrite Hq, Hs, app_nil_r. done.
    + simplify_eq. simpl. rewrite app_nil_r. exists m.
      assert (histories n (tr ++ [ev]) = histories n tr) as ->; [|done].
      destruct ev as [i x|i ex|i]; [|by apply histories_snoc_silent..].
      rewrite histories_snoc_next. simpl in Hsub.
      unfold Nary.subscribed in Hsub. apply bool_decide_eq_false in Hsub.
      apply alter_beyond. rewrite length_histories. lia.
Qed.

(** The values sent are the results on the complete columns of what the
    sources have pushed. *)
Lemma sends_observed n tr :
  0 < n →
  sends (Nary.observed result_mapper n tr) =
    omap (λ vs, returned (result_mapper vs))
      (tuples (min_length (histories n tr)) (histories n tr)).
Proof.
  intros Hn. destruct (run_buffered n tr Hn) as (m & Hbuf & Hsends).
  unfold Nary.observed. rewrite Hsends.
  by rewrite (buffered_min_length _ _ _ Hbuf).
Qed.

End invariant.

(** ** Sources that push their values and complete *)

Section aligned.
Context {V R E : Type}.
Variable result_mapper : list V → outcome R E.
Implicit Types (tr : list (event V E)) (ss : list (list V)).

Lemma received_app i tr1 tr2 :
  received i (tr1 ++ tr2) = received i tr1 ++ received i tr2.
Proof. apply omap_app. Qed.

Lemma received_emitted_by i tr : received i (emitted_by i tr) = received i tr.
Proof.
  induction tr as [|ev tr IH]; [done|].
  change (emitted_by i (ev :: tr))
    with (if origin ev =? i then [ev] ++ emitted_by i tr else emitted_by i tr).
  change (ev :: tr) with ([ev] ++ tr). rewrite (received_app i [ev] tr).
  destruct (Nat.eqb_spec (origin ev) i) as [Hi|Hi].
  - by rewrite received_app, IH.
  - rewrite IH. destruct ev as [j x| |]; try done.
    simpl in *. by destruct (Nat.eqb_spec j i).
Qed.

Lemma received_values i (s : list V) :
  received i (map (OnNext i) s ++ [OnCompleted (E:=E) i]) = s.
Proof.
  rewrite received_app.
  change (received i [OnCompleted i]) with ([] : list V).
  rewrite app_nil_r. induction s as [|x s IH]; [done|].
  change (map (OnNext i) (x :: s))
    with ([OnNext (E:=E) i x] ++ map (OnNext i) s).
  rewrite received_app, IH. unfold received. simpl.
  by rewrite Nat.eqb_refl.
Qed.

Lemma plays_histories ss tr : plays ss tr → histories (length ss) tr = ss.
Proof.
  intros Hplays. apply list_eq; intros i.
  destruct (ss !! i) as [s|] eqn:Hs.
  - rewrite histories_lookup by (by eapply lookup_lt_Some).
    by rewrite <- received_emitted_by, (Hplays i s Hs), received_values.
  - apply lookup_ge_None. rewrite length_histories.
    by apply lookup_ge_None.
Qed.

Lemma returned_tuples (f : list V → R) m ss :
  (∀ k, k < m → result_mapper (column k ss) = Returns (f (column k ss))) →
  omap (λ vs, returned (result_mapper vs)) (tuples m ss) = map f (tuples m ss).
Proof.
  induction m as [|m IH]; intros Hret; [done|].
  rewrite tuples_S, omap_app, map_app, IH by (intros; apply Hret; lia).
  simpl. by rewrite Hret by lia.
Qed.

Lemma tuples_lookup m ss k : k < m → tuples m ss !! k = Some (column k ss).
Proof.
  intros Hk. unfold tuples. change (map ?f ?l) with (f <$> l).
  by rewrite list_lookup_fmap, lookup_seq_lt.
Qed.

(** C1.  For N >= 1 sources that push the sequences [ss] and complete, in
    whatever interleaving, the zip of these sources sends exactly
    [min_length ss] values downstream, and the value at position [k] is
    the combiner applied to the [k]-th value of every source, in the order
    of the sources.  The combiner is taken to return on these tuples. *)
Theorem zip_emits_aligned_tuples (f : list V → R) ss tr :
  ss ≠ [] →
  plays ss tr →
  (∀ k vs, k < min_length ss →
     Forall2 (λ s v, s !! k = Some v) ss vs →
     result_mapper vs = Returns (f vs)) →
  length (sends (Nary.observed result_mapper (length ss) tr)) = min_length ss ∧
  ∀ k, k < min_length ss →
    ∃ vs, Forall2 (λ s v, s !! k = Some v) ss vs ∧
          sends (Nary.observed result_mapper (length ss) tr) !! k
            = Some (f vs).
Proof.
  intros Hne Hplays Hret.
  assert (0 < length ss) as Hn by (destruct ss; [done|simpl; lia]).
  rewrite sends_observed, (plays_histories _ _ Hplays) by done.
  assert (∀ k, k < min_length ss →
            Forall2 (λ s v, s !! k = Some v) ss (column k ss)) as Hcol.
  { intros k Hk. apply column_full. intros j s Hs.
    pose proof (min_length_le ss j s Hs). lia. }
  rewrite (returned_tuples f) by (intros k Hk; apply (Hret k); auto).
  split.
  - by rewrite length_map, length_tuples.
  - intros k Hk. exists (column k ss). split; [auto|].
    change (map ?g ?l) with (g <$> l).
    by rewrite list_lookup_fmap, tuples_lookup.
Qed.

End aligned.

(** ** Completion and the values that follow it *)

Section completion.
Context {V R E : Type}.
Variable result_mapper : list V → outcome R E.
Implicit Types (st : @Nary.state V) (tr : list (event V E)).
Implicit Types (out : list (notification R E)).

Lemma send_is_done i x st :
  Nary.is_done (fst (Nary.send result_mapper i x st)) = Nary.is_done st.
Proof.
  unfold Nary.send, Nary.next. simpl.
  destruct (Nary.all_queued _); simpl.
  - by destruct (result_mapper _).
  - by destruct (Nary.others_done _ _).
Qed.

Lemma send_length_queues i x st :
  length (Nary.queues (fst (Nary.send result_mapper i x st)))
  = length (Nary.queues st).
Proof.
  unfold Nary.send, Nary.next. simpl.
  destruct (Nary.all_queued _); simpl.
  - destruct (result_mapper _); simpl; by rewrite length_map, length_alter.
  - destruct (Nary.others_done _ _); simpl; by rewrite length_alter.
Qed.

Lemma done_is_done i st :
  Nary.is_done (fst (Nary.done (R:=R) (E:=E) i st))
  = <[i := true]> (Nary.is_done st).
Proof. unfold Nary.done. by destruct (all _). Qed.

Lemma starved_not_all_queued (qs : list (list V)) j :
  qs !! j = Some [] → Nary.all_queued qs = false.
Proof.
  intros Hj. destruct (Nary.all_queued qs) eqn:Hall; [|done].
  rewrite all_queued_spec in Hall. by destruct (Hall j [] Hj).
Qed.

(** Once a completed source has an empty queue, a value from a source that
    has not completed is only buffered. *)
Lemma send_starved i x st :
  starved st → Nary.is_done st !! i ≠ Some true →
  starved (fst (Nary.send result_mapper i x st)) ∧
  (snd (Nary.send result_mapper i x st) = [Close] ∨
   snd (Nary.send result_mapper i x st) = []).
Proof.
  intros (j & Hdone & Hq) Hi.
  assert (i ≠ j) as Hne by (intros ->; done).
  unfold Nary.send. rewrite next_idle.
  - simpl. split.
    + exists j. simpl. by rewrite list_lookup_alter_ne.
    + destruct (Nary.others_done _ _); auto.
  - apply (starved_not_all_queued _ j). simpl.
    by rewrite list_lookup_alter_ne.
Qed.

(** The completion that [next] forwards comes with a starved store. *)
Lemma send_close i x st :
  length (Nary.is_done st) = length (Nary.queues st) →
  Close ∈ snd (Nary.send result_mapper i x st) →
  starved (fst (Nary.send result_mapper i x st)).
Proof.
  intros Hlen. unfold Nary.send.
  set (st1 := Nary.State _ _).
  destruct (Nary.all_queued (Nary.queues st1)) eqn:Hall.
  - rewrite next_forward by done. simpl. intros Hin.
    apply list_elem_of_singleton in Hin. by destruct (result_mapper _).
  - rewrite next_idle by done. simpl.
    destruct (Nary.others_done i (Nary.is_done st)) eqn:Hothers;
      [intros _|by intros ?%elem_of_nil].
    destruct (all_queued_false _ Hall) as [j Hj]. exists j. split; [|done].
    simpl in *. assert (i ≠ j) as Hne.
    { intros ->. rewrite list_lookup_alter_eq in Hj.
      destruct (Nary.queues st !! j) as [q|]; [|done].
      simpl in Hj. injection Hj as Hj. by destruct q. }
    rewrite list_lookup_alter_ne in Hj by done.
    apply lookup_lt_Some in Hj. rewrite <- Hlen in Hj.
    destruct (lookup_lt_is_Some_2 _ _ Hj) as [b Hb].
    rewrite others_done_spec in Hothers.
    rewrite Hb. f_equal. apply (Hothers j b Hb). done.
Qed.

Lemma done_starved i st :
  starved st → starved (fst (Nary.done (R:=R) (E:=E) i st)).
Proof.
  intros (j & Hdone & Hq). exists j.
  rewrite done_is_done, done_queues. split; [|done].
  destruct (decide (i = j)) as [->|Hne].
  - apply list_lookup_insert_eq. by eapply lookup_lt_Some.
  - by rewrite list_lookup_insert_ne.
Qed.

(** The completion that [done] forwards comes with a starved store, as
    soon as some queue is empty. *)
Lemma done_close i st j :
  Nary.queues st !! j = Some [] →
  length (Nary.is_done st) = length (Nary.queues st) →
  Close ∈ snd (Nary.done (R:=R) (E:=E) i st) →
  starved (fst (Nary.done (R:=R) (E:=E) i st)).
Proof.
  intros Hj Hlen. unfold Nary.done. simpl.
  destruct (all _) eqn:Hall; [intros _|by intros ?%elem_of_nil].
  exists j. simpl. split; [|done].
  rewrite all_spec in Hall.
  apply lookup_lt_Some in Hj. rewrite <- Hlen in Hj.
  rewrite <- (length_insert (Nary.is_done st) i true) in Hj.
  destruct (lookup_lt_is_Some_2 _ _ Hj) as [b Hb].
  rewrite Hb. f_equal. by apply (Hall j).
Qed.

Lemma buffered_empty_queue m (hs qs : list (list V)) :
  buffered m hs qs → ∃ j, qs !! j = Some [].
Proof.
  intros (-> & _ & j & h & Hj & Hh). exists j.
  rewrite lookup_map_drop, Hj. simpl. f_equal. apply drop_ge. lia.
Qed.

Lemma closes_last_snoc out o :
  closes_last out → (Close ∈ out → is_send o = false) →
  closes_last (out ++ [o]).
Proof.
  intros Hout Ho pre post Heq r Hr.
  destruct post as [|o' post _] using rev_ind; [by apply elem_of_nil in Hr|].
  change (pre ++ Close :: post ++ [o'])
    with (pre ++ (Close :: post) ++ [o']) in Heq.
  rewrite app_assoc in Heq. apply app_inj_tail in Heq as [-> ->].
  apply elem_of_app in Hr as [Hr|Hr].
  - by apply (Hout pre post eq_refl r).
  - apply list_elem_of_singleton in Hr as <-.
    assert (Close ∈ pre ++ Close :: post) as Hin.
    { apply elem_of_app. right. apply elem_of_cons. by left. }
    by specialize (Ho Hin).
Qed.

End completion.

(** ** No value after a completion *)

Section tidy.
Context {V R E : Type}.
Variable result_mapper : list V → outcome R E.
Implicit Types (st : @Nary.state V) (tr : list (event V E)).
Implicit Types (out : list (notification R E)).

Lemma closes_last_app out out' :
  closes_last out →
  (Close ∈ out → ∀ r, Send r ∉ out') →
  length out' ≤ 1 →
  closes_last (out ++ out').
Proof.
  intros Hout Hno Hlen. destruct out' as [|o [|o' out']]; simpl in Hlen.
  - by rewrite app_nil_r.
  - apply closes_last_snoc; [done|]. intros Hin. destruct o as [r| |]; try done.
    destruct (Hno Hin r). by apply list_elem_of_singleton.
  - lia.
Qed.

Lemma run_unsubscribed st tr :
  Nary.run result_mapper 0 st tr = (st, []).
Proof.
  induction tr as [|ev tr IH]; [done|].
  change (Nary.run result_mapper 0 st (ev :: tr))
    with (let '(st1, out1) := Nary.deliver result_mapper 0 st ev in
          let '(st2, out2) := Nary.run result_mapper 0 st1 tr in
          (st2, out1 ++ out2)).
  unfold Nary.deliver, Nary.subscribed.
  case_bool_decide; [lia|]. by rewrite IH.
Qed.

Lemma next_at_most_one i st :
  length (snd (Nary.next result_mapper i st)) ≤ 1.
Proof.
  unfold Nary.next. destruct (Nary.all_queued _); simpl.
  - by destruct (result_mapper _).
  - destruct (Nary.others_done _ _); simpl; lia.
Qed.

Lemma deliver_lengths n st ev :
  length (Nary.queues (fst (Nary.deliver result_mapper n st ev)))
    = length (Nary.queues st) ∧
  length (Nary.is_done (fst (Nary.deliver result_mapper n st ev)))
    = length (Nary.is_done st).
Proof.
  unfold Nary.deliver. destruct (Nary.subscribed _ _); [|done].
  destruct ev as [i x|i ex|i]; [|done|].
  - by rewrite send_length_queues, send_is_done.
  - by rewrite done_queues, done_is_done, length_insert.
Qed.

(** The flags only record completions that the sources have signalled. *)
Lemma deliver_is_done n st ev j :
  Nary.is_done (fst (Nary.deliver result_mapper n st ev)) !! j = Some true →
  Nary.is_done st !! j = Some true ∨ ev = OnCompleted j.
Proof.
  unfold Nary.deliver. destruct (Nary.subscribed _ _); [|auto].
  destruct ev as [i x|i ex|i]; [|auto|].
  - rewrite send_is_done. auto.
  - rewrite done_is_done. destruct (decide (i = j)) as [->|Hne]; [auto|].
    rewrite list_lookup_insert_ne by done. auto.
Qed.

Lemma deliver_completion n st ev :
  length (Nary.is_done st) = length (Nary.queues st) →
  (∃ j, Nary.queues st !! j = Some []) →
  (∀ i x, ev = OnNext i x → Nary.is_done st !! i ≠ Some true) →
  length (snd (Nary.deliver result_mapper n st ev)) ≤ 1 ∧
  (starved st →
     starved (fst (Nary.deliver result_mapper n st ev)) ∧
     ∀ r, Send r ∉ snd (Nary.deliver result_mapper n st ev)) ∧
  (Close ∈ snd (Nary.deliver result_mapper n st ev) →
     starved (fst (Nary.deliver result_mapper n st ev))).
Proof.
  intros Hlen [j Hj] Hquiet. unfold Nary.deliver.
  destruct (Nary.subscribed _ _).
  - destruct ev as [i x|i ex|i].
    + split; [apply next_at_most_one|]. split.
      * intros Hst.
        destruct (send_starved result_mapper i x st Hst (Hquiet i x eq_refl))
          as [Hst' [-> | ->]]; (split; [done|]); intros r Hr.
        -- by apply list_elem_of_singleton in Hr.
        -- by apply elem_of_nil in Hr.
      * by apply send_close.
    + simpl. split; [lia|]. split.
      * intros Hst. split; [done|]. intros r Hr.
        by apply list_elem_of_singleton in Hr.
      * intros Hin. by apply list_elem_of_singleton in Hin.
    + split; [|split].
      * unfold Nary.done. destruct (all _); simpl; lia.
      * intros Hst. split; [by apply done_starved|]. intros r Hr.
        unfold Nary.done in Hr. destruct (all _); simpl in Hr.
        -- by apply list_elem_of_singleton in Hr.
        -- by apply elem_of_nil in Hr.
      * by apply (done_close i st j).
  - simpl. split; [lia|]. split.
    + intros Hst. split; [done|]. intros r Hr. by apply elem_of_nil in Hr.
    + intros Hin. by apply elem_of_nil in Hin.
Qed.

Lemma silent_once_completed_snoc tr ev :
  silent_once_completed (tr ++ [ev]) →
  silent_once_completed tr ∧
  ∀ i x, ev = OnNext i x → OnCompleted i ∉ tr.
Proof.
  intros Hsilent. split.
  - intros pre i x post ->. apply (Hsilent pre i x (post ++ [ev])).
    by rewrite <- app_assoc.
  - intros i x ->. by apply (Hsilent tr i x []).
Qed.

(** What holds of a subscription's store and of the notifications made so
    far, whatever sources that keep silent once completed push. *)
Lemma run_tidy n tr :
  0 < n →
  silent_once_completed tr →
  let st := fst (Nary.run result_mapper n (Nary.initial n) tr) in
  let out := snd (Nary.run result_mapper n (Nary.initial n) tr) in
  length (Nary.queues st) = n ∧ length (Nary.is_done st) = n ∧
  (∀ j, Nary.is_done st !! j = Some true → OnCompleted j ∈ tr) ∧
  (Close ∈ out → starved st) ∧
  closes_last out.
Proof.
  intros Hn. induction tr as [|ev tr IH] using rev_ind; intros Hsilent.
  - simpl. rewrite !length_replicate. repeat split; try done.
    + intros j Hj. apply lookup_replicate in Hj as [? _]. done.
    + intros Hin. by apply elem_of_nil in Hin.
    + intros pre post Heq. by destruct pre.
  - apply silent_once_completed_snoc in Hsilent as [Hsilent Hev].
    specialize (IH Hsilent). simpl in IH.
    destruct (run_buffered result_mapper n tr Hn) as (m & Hbuf & _).
    apply buffered_empty_queue in Hbuf.
    rewrite run_snoc.
    destruct (Nary.run result_mapper n (Nary.initial n) tr) as [st out].
    simpl in IH, Hbuf. destruct IH as (Hq & Hd & Hflags & Hclosed & Hlast).
    pose proof (deliver_lengths n st ev) as [Hq' Hd'].
    pose proof (deliver_is_done n st ev) as Hflags'.
    assert (∀ i x, ev = OnNext i x → Nary.is_done st !! i ≠ Some true)
      as Hquiet.
    { intros i x Heq Hi. by apply (Hev i x Heq), Hflags. }
    destruct (deliver_completion n st ev) as (Hone & Hkeep & Hnew);
      [congruence|done|done|].
    destruct (Nary.deliver result_mapper n st ev) as [st' out'].
    simpl in *. split; [congruence|]. split; [congruence|]. split; [|split].
    + intros j Hj. apply elem_of_app.
      destruct (Hflags' j Hj) as [Hold | ->]; [left; by apply Hflags|].
      right. by apply list_elem_of_singleton.
    + intros Hin. apply elem_of_app in Hin as [Hin|Hin]; [|by apply Hnew].
      by apply Hkeep, Hclosed.
    + apply closes_last_app; [done| |done].
      intros Hin. by apply Hkeep, Hclosed.
Qed.

End tidy.

(** ** The zip of no source *)

Section no_source.
Context {V R E : Type}.
Variable result_mapper : list V → outcome R E.

Lemma observed_no_source (tr : list (event V E)) :
  Nary.observed result_mapper 0 tr = [].
Proof. unfold Nary.observed. by rewrite run_unsubscribed. Qed.

(** C8.  With no source operand, whatever is pushed at the subscription,
    no value is ever sent to the observer. *)
Theorem zero_sources_never_send (tr : list (event V E)) :
  ∀ r, Send r ∉ Nary.observed result_mapper 0 tr.
Proof. intros r. rewrite observed_no_source. apply not_elem_of_nil. Qed.

(** C10.  With no source operand, the observer is never completed and
    never failed either: [subscribe] registers no callback, so that nothing
    can reach [done], [next] or [observer.throw]. *)
Theorem zero_sources_never_terminate (tr : list (event V E)) :
  (Close ∉ Nary.observed result_mapper 0 tr) ∧
  (∀ ex, Throw ex ∉ Nary.observed result_mapper 0 tr) ∧
  (∀ ev st, Nary.deliver result_mapper 0 st ev = (st, [])).
Proof.
  rewrite observed_no_source. split; [apply not_elem_of_nil|].
  split; [intros ex; apply not_elem_of_nil|].
  intros ev st. unfold Nary.deliver, Nary.subscribed.
  case_bool_decide; [lia|done].
Qed.

End no_source.

(** ** A combiner that raises *)

Section raising.
Context {V R E : Type}.
Variable result_mapper : list V → outcome R E.
Implicit Types (st : @Nary.state V).

(** C5, as the code has it.  When every queue holds a value once [x] is
    appended and the combiner raises [ex] on the popped heads, the one
    notification made is the failure [ex]: no value is sent for that
    tuple.  (Nothing here ends a subscription: a later notification is
    processed as any other.) *)
Theorem combiner_failure_is_forwarded n i x st ex :
  i < n →
  Nary.all_queued (alter (λ q, q ++ [x]) i (Nary.queues st)) = true →
  result_mapper (omap head (alter (λ q, q ++ [x]) i (Nary.queues st)))
    = Raises ex →
  snd (Nary.deliver result_mapper n st (OnNext i x)) = [Throw ex].
Proof.
  intros Hi Hall Hraise. unfold Nary.deliver, Nary.subscribed. simpl.
  rewrite bool_decide_eq_true_2 by done.
  unfold Nary.send. rewrite next_forward by done. simpl. by rewrite Hraise.
Qed.

(** C9.  When the combiner raises, [next] leaves every queue without its
    head: the popped values are not put back, and the failure is what is
    forwarded. *)
Theorem combiner_failure_leaves_queues_popped i st ex :
  Nary.all_queued (Nary.queues st) = true →
  result_mapper (omap head (Nary.queues st)) = Raises ex →
  snd (Nary.next result_mapper i st) = [Throw ex] ∧
  Nary.is_done (fst (Nary.next result_mapper i st)) = Nary.is_done st ∧
  length (Nary.queues (fst (Nary.next result_mapper i st)))
    = length (Nary.queues st) ∧
  ∀ j q, Nary.queues st !! j = Some q →
    ∃ v q', q = v :: q' ∧
            Nary.queues (fst (Nary.next result_mapper i st)) !! j = Some q' ∧
            length q' + 1 = length q.
Proof.
  intros Hall Hraise. rewrite next_forward by done. simpl.
  rewrite Hraise. split; [done|]. split; [done|].
  split; [by rewrite length_map|].
  intros j q Hq. rewrite all_queued_spec in Hall.
  pose proof (Hall j q Hq) as Hne. destruct q as [|v q']; [done|].
  exists v, q'. split; [done|]. split; [|simpl; lia].
  change (map ?f ?l) with (f <$> l). by rewrite list_lookup_fmap, Hq.
Qed.

(** C7.  The asymmetric check of [next]: a value from source [i] that does
    not complete a tuple makes the observer close exactly when the flag of
    every other source is set; the completion of another source [j], with
    the flag of [i] unset, closes nothing, whatever the queue of [i]
    holds. *)
Theorem done_detection_is_asymmetric i x st :
  Nary.all_queued (alter (λ q, q ++ [x]) i (Nary.queues st)) = false →
  (snd (Nary.send result_mapper i x st) = [Close] ∨
   snd (Nary.send result_mapper i x st) = []) ∧
  (snd (Nary.send result_mapper i x st) = [Close] ↔
   ∀ j b, Nary.is_done st !! j = Some b → j ≠ i → b = true) ∧
  (∀ j, j ≠ i → Nary.is_done st !! i = Some false →
     snd (Nary.done (R:=R) (E:=E) j st) = []).
Proof.
  intros Hall. unfold Nary.send. rewrite next_idle by done. simpl.
  rewrite <- others_done_spec.
  split; [destruct (Nary.others_done _ _); auto|].
  split; [by destruct (Nary.others_done _ _)|].
  intros j Hne Hi. unfold Nary.done. simpl.
  destruct (all _) eqn:Hflags; [|done].
  rewrite all_spec in Hflags. specialize (Hflags i false).
  rewrite list_lookup_insert_ne in Hflags by done. by specialize (Hflags Hi).
Qed.

(** C6, as the code has it.  As long as no source pushes a value after its
    own completion, no value is sent to the observer after a completion.
    (Completions may be repeated and a value may follow a failure: the
    store records no termination.) *)
Theorem no_value_after_completion n (tr : list (event V E)) :
  silent_once_completed tr →
  closes_last (Nary.observed result_mapper n tr).
Proof.
  intros Hsilent. destruct n as [|n].
  - rewrite observed_no_source. intros pre post Heq. by destruct pre.
  - destruct (run_tidy result_mapper (S n) tr) as (_ & _ & _ & _ & Hlast);
      [lia|done|exact Hlast].
Qed.

End raising.

(** ** The list path *)

Section list_path.
Context {V R E : Type}.
Variable result_mapper : list V → outcome R E.
Variable second : list V.
Implicit Types (vs : list V) (index : nat).

Lemma list_send_in_range left_ right_ index :
  second !! index = Some right_ →
  ListZip.send result_mapper second left_ index =
    (index + 1, [forward (result_mapper [left_; right_])]).
Proof.
  intros Hr. unfold ListZip.send.
  pose proof (lookup_lt_Some _ _ _ Hr) as Hlt.
  apply Nat.ltb_lt in Hlt. rewrite Hlt, Hr. by destruct (result_mapper _).
Qed.

Lemma list_send_exhausted left_ index :
  length second ≤ index →
  ListZip.send result_mapper second left_ index = (index, [Close]).
Proof.
  intros Hle. unfold ListZip.send.
  apply Nat.ltb_ge in Hle. by rewrite Hle.
Qed.

Lemma list_run_app index (tr1 tr2 : list (@ListZip.input V E)) :
  ListZip.run result_mapper second index (tr1 ++ tr2) =
    let '(index1, out1) := ListZip.run result_mapper second index tr1 in
    let '(index2, out2) := ListZip.run result_mapper second index1 tr2 in
    (index2, out1 ++ out2).
Proof.
  revert index. induction tr1 as [|ev tr1 IH]; intros index; simpl.
  - by destruct (ListZip.run _ _ _ tr2).
  - destruct (ListZip.deliver _ _ index ev) as [index1 out1]. rewrite IH.
    destruct (ListZip.run _ _ index1 tr1) as [index2 out2].
    destruct (ListZip.run _ _ index2 tr2) as [index3 out3].
    by rewrite app_assoc.
Qed.

(** Once the list is exhausted every further value closes the observer
    again, and the cursor stays where it is. *)
Lemma list_run_exhausted index vs :
  length second ≤ index →
  ListZip.run result_mapper second index (map ListZip.Value vs) =
    (index, replicate (length vs) Close).
Proof.
  intros Hle. induction vs as [|v vs IH]; [done|]. simpl.
  by rewrite list_send_exhausted, IH.
Qed.

(** Values met by the cursor are combined with the item under it. *)
Lemma list_run_values (f : V → V → R) index vs :
  index ≤ length second →
  (∀ i l r, vs !! i = Some l → second !! (index + i) = Some r →
     result_mapper [l; r] = Returns (f l r)) →
  ListZip.run result_mapper second index (map ListZip.Value vs) =
    ((index + length vs) `min` length second,
     map Send (zip_with f vs (drop index second)) ++
     replicate (length vs - (length second - index)) Close).
Proof.
  revert index. induction vs as [|v vs IH]; intros index Hindex Hret.
  - cbn -[Nat.min Nat.sub]. f_equal. lia.
  - destruct (decide (index < length second)) as [Hlt|Hge].
    + destruct (lookup_lt_is_Some_2 second index Hlt) as [r Hr].
      cbn -[Nat.min Nat.sub]. rewrite (list_send_in_range v r) by done.
      rewrite (Hret 0 v r) by (by rewrite ?Nat.add_0_r).
      rewrite (IH (index + 1)).
      * rewrite (drop_S second r index Hr).
        replace (index + 1) with (S index) by lia.
        cbn -[Nat.min Nat.sub]. f_equal; [lia|]. do 3 f_equal. lia.
      * lia.
      * intros i l r' Hl Hr'. apply (Hret (S i)); [done|].
        by replace (index + S i) with (index + 1 + i) by lia.
    + change (map ListZip.Value (v :: vs))
        with ([ListZip.Value (E:=E) v] ++ map ListZip.Value vs).
      rewrite drop_ge, zip_with_nil_r by lia.
      replace (length second - index) with 0 by lia.
      rewrite list_run_app, Nat.sub_0_r. cbn -[Nat.min Nat.sub].
      rewrite list_send_exhausted, list_run_exhausted by lia.
      cbn -[Nat.min Nat.sub]. f_equal. lia.
Qed.

(** C2.  On the list path, when the source pushes the values [vs], the
    values sent are exactly the first [min k L] pairs combined, the [i]-th
    being the combiner of the [i]-th value and of the [i]-th item of the
    list; each value is combined when it arrives, the store being the
    cursor alone.  The combiner is taken to return on these pairs. *)
Theorem list_zip_emits_paired_values (f : V → V → R) vs :
  (∀ i l r, vs !! i = Some l → second !! i = Some r →
     result_mapper [l; r] = Returns (f l r)) →
  sends (ListZip.observed result_mapper second (map ListZip.Value vs))
    = zip_with f vs second ∧
  length (sends (ListZip.observed result_mapper second
                   (map ListZip.Value vs)))
    = length vs `min` length second ∧
  (∀ i l r, vs !! i = Some l → second !! i = Some r →
     sends (ListZip.observed result_mapper second (map ListZip.Value vs)) !! i
       = Some (f l r)) ∧
  (∀ pre v post r, vs = pre ++ v :: post →
     second !! length pre = Some r →
     ListZip.deliver result_mapper second
       (fst (ListZip.run result_mapper second 0 (map ListZip.Value pre)))
       (ListZip.Value v)
     = (length pre + 1, [Send (f v r)])).
Proof.
  intros Hret.
  assert (sends (ListZip.observed result_mapper second
                   (map ListZip.Value vs)) = zip_with f vs second) as Hsends.
  { unfold ListZip.observed. rewrite (list_run_values f 0 vs); [|lia|done].
    simpl. rewrite drop_0, sends_app.
    assert (∀ n, sends (replicate n (@Close R E)) = []) as ->.
    { intros n. by induction n. }
    rewrite app_nil_r. generalize (zip_with f vs second). intros rs.
    induction rs as [|r rs IH]; [done|]. simpl. by rewrite <- IH at 2. }
  rewrite Hsends. split; [done|]. split; [by rewrite length_zip_with|].
  split.
  - intros i l r Hl Hr. by rewrite lookup_zip_with, Hl, Hr.
  - intros pre v post r -> Hr.
    rewrite (list_run_values f 0 pre).
    + simpl. pose proof (lookup_lt_Some _ _ _ Hr) as Hlt.
      rewrite Nat.min_l by lia.
      rewrite (list_send_in_range v r) by done.
      rewrite (Hret (length pre) v r); [done| |done].
      by rewrite lookup_app_r, Nat.sub_diag by lia.
    + lia.
    + intros i l r' Hl Hr'. apply (Hret i); [|done].
      by apply lookup_app_l_Some.
Qed.

(** C3, as the code has it.  The observer is closed when a value arrives
    while the cursor is at the end of the list: that value is not combined,
    the cursor stays, and every further value closes again.  Up to and
    including the [L]-th value, no completion is made. *)
Theorem list_zip_closes_on_value_past_the_end vs more :
  length vs ≤ length second →
  (Close ∉ ListZip.observed result_mapper second (map ListZip.Value vs)) ∧
  (length vs = length second →
     ListZip.observed result_mapper second (map ListZip.Value (vs ++ more))
     = ListZip.observed result_mapper second (map ListZip.Value vs)
       ++ replicate (length more) Close) ∧
  (∀ left_ index, length second ≤ index →
     ListZip.send result_mapper second left_ index = (index, [Close])).
Proof.
  intros Hlen.
  assert (∀ index, index + length vs ≤ length second →
    fst (ListZip.run result_mapper second index (map ListZip.Value vs))
      = index + length vs ∧
    Close ∉ snd (ListZip.run result_mapper second index
                   (map ListZip.Value vs))) as Hrun.
  { clear Hlen. induction vs as [|v vs IH]; intros index Hindex.
    - simpl. split; [lia|apply not_elem_of_nil].
    - simpl in Hindex.
      destruct (lookup_lt_is_Some_2 second index) as [r Hr]; [lia|].
      simpl. rewrite (list_send_in_range v r) by done.
      destruct (IH (index + 1)) as [Hfst Hsnd]; [lia|].
      destruct (ListZip.run _ _ (index + 1) _) as [index2 out2].
      simpl in *. split; [lia|]. intros Hin.
      apply elem_of_cons in Hin as [Hin|Hin]; [|done].
      by destruct (result_mapper _). }
  split; [apply (Hrun 0); lia|]. split; [|apply list_send_exhausted].
  intros Heq. unfold ListZip.observed. rewrite map_app, list_run_app.
  destruct (Hrun 0) as [Hfst _]; [lia|].
  destruct (ListZip.run _ _ 0 (map ListZip.Value vs)) as [index1 out1].
  simpl in Hfst. rewrite list_run_exhausted by lia. done.
Qed.

End list_path.

(** ** The default combiner *)

(** C4 fails on the code.  [zip] replaces a missing [result_mapper] by
    [list] on the N-ary path only, where [list] is then called on the
    unpacked values and raises for two values or more; on the list path
    [None] itself is called.  Either way the observer is failed with a
    [TypeError] where the collected values were expected. *)
Theorem default_combiner_raises :
  Py.observed
    (Py.zip [Py.AsyncSource; Py.FiniteSequence [Py.Int 10; Py.Int 20]] None)
    [] [ListZip.Value (Py.Int 1)]
    = [Throw Py.TypeError] ∧
  Py.observed (Py.zip [Py.AsyncSource; Py.AsyncSource] None)
    [OnNext 0 (Py.Int 1); OnNext 1 (Py.Int 10)] []
    = [Throw Py.TypeError] ∧
  [Throw Py.TypeError]
    ≠ [Send (R:=Py.object) (Py.collect [Py.Int 1; Py.Int 10])] ∧
  (∀ args, Py.call None args = Raises Py.TypeError) ∧
  (∀ a b args,
     Py.call (Some (Py.or_list None)) (a :: b :: args) = Raises Py.TypeError).
Proof.
  split; [reflexivity|]. split; [reflexivity|]. split; [discriminate|].
  split; [reflexivity|]. intros a b args. simpl. by destruct a.
Qed.

(** ** Where the code departs from the specification *)

(** Against C3: the list [[10; 20]] is exhausted by the values 1 and 2,
    both results are sent, and no completion is made. *)
Lemma list_zip_not_closed_with_last_result :
  ListZip.observed Scenario.sum [10; 20]%Z
    [ListZip.Value 1%Z; ListZip.Value 2%Z]
    = [Send 11%Z; Send 22%Z] ∧
  ¬ (Close ∈ ListZip.observed Scenario.sum [10; 20]%Z
               [ListZip.Value 1%Z; ListZip.Value 2%Z]).
Proof.
  split; [reflexivity|]. intros Hin. vm_compute in Hin.
  repeat (apply elem_of_cons in Hin as [Hin|Hin]; [discriminate|]).
  by apply elem_of_nil in Hin.
Qed.

(** Against C5: the combiner raises on the first value of the only source;
    the second value is processed all the same and its result is sent. *)
Lemma processing_goes_on_after_combiner_failure :
  Nary.observed Scenario.fussy 1 [OnNext 0 0%Z; OnNext 0 5%Z]
    = [Throw Scenario.ValueError; Send 5%Z].
Proof. reflexivity. Qed.

(** Against C6: source 0 completes without a value, source 1 pushes a value
    and completes; the observer is closed by [next] and closed again by
    [done]. *)
Lemma completion_is_repeated :
  Nary.observed Scenario.sum 2
    [OnCompleted 0; OnNext 1 10%Z; OnCompleted 1]
    = [Close; Close].
Proof. reflexivity. Qed.

(** ** The properties on concrete sources *)

Lemma interleaved_plays :
  plays [[1; 2; 3]; [10; 20]]%Z Scenario.interleaved.
Proof.
  intros i s Hs. destruct i as [|[|i]]; simpl in Hs; simplify_eq; reflexivity.
Qed.

Lemma interleaved_silent : silent_once_completed Scenario.interleaved.
Proof.
  intros pre i x post Heq Hin. unfold Scenario.interleaved in Heq.
  do 8 (destruct pre as [|? pre]; simplify_eq/=;
        try (repeat (apply elem_of_cons in Hin as [Hin|Hin]; [discriminate|]);
             by apply elem_of_nil in Hin)).
Qed.

Lemma zip_emits_aligned_tuples_witness :
  length (sends (Nary.observed Scenario.sum 2 Scenario.interleaved)) = 2 ∧
  ∀ k, k < 2 →
    ∃ vs, Forall2 (λ s v, s !! k = Some v) [[1; 2; 3]; [10; 20]]%Z vs ∧
          sends (Nary.observed Scenario.sum 2 Scenario.interleaved) !! k
            = Some (foldr Z.add 0%Z vs).
Proof.
  apply (zip_emits_aligned_tuples Scenario.sum (foldr Z.add 0%Z)
           [[1; 2; 3]; [10; 20]]%Z Scenario.interleaved).
  - discriminate.
  - exact interleaved_plays.
  - reflexivity.
Defined.

Lemma list_zip_emits_paired_values_witness :
  sends (ListZip.observed Scenario.sum [10; 20]%Z
           (map ListZip.Value [1; 2; 3; 4]%Z))
    = [11; 22]%Z.
Proof.
  apply (list_zip_emits_paired_values Scenario.sum [10; 20]%Z
           (λ l r, (l + (r + 0))%Z) [1; 2; 3; 4]%Z).
  reflexivity.
Defined.

Lemma list_zip_closes_on_value_past_the_end_witness :
  ListZip.observed Scenario.sum [10; 20]%Z
    (map ListZip.Value ([1; 2] ++ [3; 4])%Z)
  = ListZip.observed Scenario.sum [10; 20]%Z (map ListZip.Value [1; 2]%Z)
    ++ [Close; Close].
Proof.
  apply (list_zip_closes_on_value_past_the_end Scenario.sum [10; 20]%Z
           [1; 2]%Z [3; 4]%Z); simpl; lia.
Defined.

Lemma combiner_failure_is_forwarded_witness :
  snd (Nary.deliver Scenario.fussy 1 (Nary.initial 1) (OnNext 0 0%Z))
    = [Throw Scenario.ValueError].
Proof.
  apply (combiner_failure_is_forwarded Scenario.fussy 1 0 0%Z
           (Nary.initial 1) Scenario.ValueError); [lia|reflexivity..].
Defined.

Lemma combiner_failure_leaves_queues_popped_witness :
  Nary.queues
    (fst (Nary.next Scenario.fussy 0
            (Nary.State [[0; 7]; [5]]%Z [false; false])))
    !! 0 = Some [7%Z].
Proof.
  destruct (combiner_failure_leaves_queues_popped Scenario.fussy 0
              (Nary.State [[0; 7]; [5]]%Z [false; false]) Scenario.ValueError
              eq_refl eq_refl) as (_ & _ & _ & Hpop).
  destruct (Hpop 0 [0; 7]%Z eq_refl) as (v & q' & Heq & Hq & _).
  injection Heq as _ <-. exact Hq.
Defined.

Lemma done_detection_is_asymmetric_witness :
  snd (Nary.send Scenario.sum 0 1%Z
         (Nary.State [[]; []] [false; true])) = [Close] ∧
  snd (Nary.done (R:=Z) (E:=Scenario.error) 1
         (Nary.State [[1%Z]; []] [false; false])) = [].
Proof.
  split.
  - apply (done_detection_is_asymmetric Scenario.sum 0 1%Z
             (Nary.State [[]; []] [false; true]) eq_refl).
    intros j b Hj Hne. destruct j as [|[|j]]; simpl in Hj; simplify_eq; done.
  - apply (done_detection_is_asymmetric Scenario.sum 0 1%Z
             (Nary.State [[1%Z]; []] [false; false]) eq_refl);
      [lia|reflexivity].
Defined.

Lemma no_value_after_completion_witness :
  closes_last (Nary.observed Scenario.sum 2 Scenario.interleaved).
Proof.
  apply (no_value_after_completion Scenario.sum 2 Scenario.interleaved).
  exact interleaved_silent.
Defined.

(** * Further properties of the code *)

(** ** The store of a subscription, whatever the sources do *)

Section store.
Context {V R E : Type}.
Variable result_mapper : list V → outcome R E.
Implicit Types (st : @Nary.state V) (tr : list (event V E)).

Lemma length_omap_le {A B} (f : A → option B) (l : list A) :
  length (omap f l) ≤ length l.
Proof.
  induction l as [|a l IH]; [done|].
  change (omap f (a :: l))
    with (match f a with Some b => b :: omap f l | None => omap f l end).
  destruct (f a); simpl; lia.
Qed.

Lemma deliver_at_most_one n st ev :
  length (snd (Nary.deliver result_mapper n st ev)) ≤ 1.
Proof.
  unfold Nary.deliver. destruct (Nary.subscribed _ _); [|simpl; lia].
  destruct ev as [i x|i ex|i]; [apply next_at_most_one|simpl; lia|].
  unfold Nary.done. destruct (all _); simpl; lia.
Qed.

(** The flags after one notification: only the completion of a subscribed
    source changes them, by setting its own. *)
Lemma deliver_flags n st ev :
  Nary.is_done (fst (Nary.deliver result_mapper n st ev)) =
    match ev with
    | OnCompleted i =>
        if Nary.subscribed n i then <[i := true]> (Nary.is_done st)
        else Nary.is_done st
    | _ => Nary.is_done st
    end.
Proof.
  unfold Nary.deliver. destruct ev as [i x|i ex|i]; simpl.
  - destruct (Nary.subscribed n i); [apply send_is_done|done].
  - by destruct (Nary.subscribed n i).
  - destruct (Nary.subscribed n i); [apply done_is_done|done].
Qed.

Lemma run_flags n tr :
  length (Nary.is_done (fst (Nary.run result_mapper n (Nary.initial n) tr)))
    = n ∧
  ∀ j, Nary.is_done (fst (Nary.run result_mapper n (Nary.initial n) tr)) !! j
         = Some true ↔ j < n ∧ OnCompleted j ∈ tr.
Proof.
  induction tr as [|ev tr IH] using rev_ind.
  - simpl. rewrite length_replicate. split; [done|]. intros j. split.
    + intros [? _]%lookup_replicate. done.
    + intros [_ Hin]. by apply elem_of_nil in Hin.
  - rewrite run_snoc.
    destruct (Nary.run result_mapper n (Nary.initial n) tr) as [st out].
    simpl in IH. destruct IH as [Hlen Hflags].
    pose proof (deliver_flags n st ev) as Hstep.
    destruct (Nary.deliver result_mapper n st ev) as [st' out'].
    simpl in *. rewrite Hstep. clear Hstep.
    assert (∀ j, OnCompleted j ∈ tr ++ [ev] ↔
                 OnCompleted j ∈ tr ∨ ev = OnCompleted j) as Hin.
    { intros j. rewrite elem_of_app, list_elem_of_singleton.
      split; (intros [?|?]; [by left|by right]). }
    destruct ev as [i x|i ex|i].
    + split; [done|]. intros j. rewrite Hflags, Hin.
      split; [intros [? ?]; auto|]. by intros [? [?|?]].
    + split; [done|]. intros j. rewrite Hflags, Hin.
      split; [intros [? ?]; auto|]. by intros [? [?|?]].
    + unfold Nary.subscribed. case_bool_decide as Hi.
      * rewrite length_insert. split; [done|]. intros j. rewrite Hin.
        destruct (decide (i = j)) as [->|Hne].
        -- rewrite list_lookup_insert_eq by lia. split; auto.
        -- rewrite list_lookup_insert_ne, Hflags by done.
           split; [intros [? ?]; auto|]. intros [? [?|?]]; [done|].
           by simplify_eq.
      * split; [done|]. intros j. rewrite Hflags, Hin.
        split; [intros [? ?]; auto|]. intros [? [?|?]]; [done|].
        by simplify_eq.
Qed.

(** Once every flag is set, the observer has been closed. *)
Lemma run_all_done n tr :
  0 < n →
  all (Nary.is_done (fst (Nary.run result_mapper n (Nary.initial n) tr)))
    = true →
  Close ∈ snd (Nary.run result_mapper n (Nary.initial n) tr).
Proof.
  intros Hn. induction tr as [|ev tr IH] using rev_ind.
  - simpl. destruct n as [|n]; [lia|done].
  - rewrite run_snoc.
    destruct (Nary.run result_mapper n (Nary.initial n) tr) as [st out].
    simpl in IH. unfold Nary.deliver.
    destruct (Nary.subscribed n (origin ev)); [|simpl; rewrite app_nil_r; auto].
    destruct ev as [i x|i ex|i].
    + pose proof (send_is_done result_mapper i x st) as Heq.
      destruct (Nary.send result_mapper i x st) as [st' out']. simpl in *.
      rewrite Heq. intros Hall. apply elem_of_app. left. auto.
    + simpl. intros Hall. apply elem_of_app. left. auto.
    + pose proof (done_is_done (R:=R) (E:=E) i st) as Heq.
      assert (all (<[i:=true]> (Nary.is_done st)) = true →
              Close ∈ snd (Nary.done (R:=R) (E:=E) i st)) as Hclose.
      { unfold Nary.done. simpl. intros ->. by apply list_elem_of_singleton. }
      destruct (Nary.done i st) as [st' out']. simpl in *.
      rewrite Heq. intros Hall. apply elem_of_app. right. auto.
Qed.

(** X1.  At any moment of a subscription to N >= 1 sources, queue [i]
    holds, in the order of their arrival, the values that source [i] has
    pushed beyond the first [m], where [m] is the least number of values
    pushed by a source: values leave the queues head first and only by
    whole tuples.  Hence some queue is empty after every notification. *)
Theorem queues_hold_unconsumed_values n tr :
  0 < n →
  Nary.queues (fst (Nary.run result_mapper n (Nary.initial n) tr))
    = map (drop (min_length (histories n tr))) (histories n tr) ∧
  ∃ j, j < n ∧
    Nary.queues (fst (Nary.run result_mapper n (Nary.initial n) tr)) !! j
      = Some [].
Proof.
  intros Hn. destruct (run_buffered result_mapper n tr Hn) as (m & Hbuf & _).
  rewrite <- (buffered_min_length _ _ _ Hbuf). split; [apply Hbuf|].
  destruct (buffered_empty_queue _ _ _ Hbuf) as [j Hj]. exists j.
  split; [|done]. apply lookup_lt_Some in Hj. destruct Hbuf as [Heq _].
  by rewrite Heq, length_map, length_histories in Hj.
Qed.

(** X2.  The number of values sent never exceeds the number of values that
    any one subscribed source has pushed, whatever the interleaving, the
    failures and the completions. *)
Theorem sends_bounded_by_every_source n tr i :
  i < n →
  length (sends (Nary.observed result_mapper n tr)) ≤ length (received i tr).
Proof.
  intros Hi. rewrite sends_observed by lia.
  etrans; [apply length_omap_le|]. rewrite length_tuples.
  apply (min_length_le _ i). by apply histories_lookup.
Qed.

(** X3.  The values sent depend on what each source has pushed, not on
    the order in which the notifications of different sources arrive, nor
    on their failures and completions. *)
Theorem sends_independent_of_interleaving n tr1 tr2 :
  (∀ i, i < n → received i tr1 = received i tr2) →
  sends (Nary.observed result_mapper n tr1)
    = sends (Nary.observed result_mapper n tr2).
Proof.
  intros Heq. destruct n as [|n]; [by rewrite !observed_no_source|].
  rewrite !sends_observed by lia.
  assert (histories (S n) tr1 = histories (S n) tr2) as ->; [|done].
  unfold histories. apply map_ext_in. intros i Hi%in_seq. apply Heq. lia.
Qed.

(** X4.  A notification of a source makes at most one call on the
    observer: from any store, the observer is called at most as many times
    as the sources have notified. *)
Theorem at_most_one_call_per_notification n st tr :
  length (snd (Nary.run result_mapper n st tr)) ≤ length tr.
Proof.
  revert st. induction tr as [|ev tr IH]; intros st; [done|].
  change (ev :: tr) with ([ev] ++ tr). rewrite run_app. simpl.
  pose proof (deliver_at_most_one n st ev) as Hone.
  destruct (Nary.deliver result_mapper n st ev) as [st1 out1].
  specialize (IH st1).
  destruct (Nary.run result_mapper n st1 tr) as [st2 out2].
  simpl in *. rewrite app_nil_r, length_app. lia.
Qed.

(** X5.  The flag of source [j] is set exactly when [j] is a subscribed
    source that has completed: flags are latches, set by the completion of
    their own source only and never reset, and there are always [n] of
    them. *)
Theorem flags_record_completions n tr j :
  length (Nary.is_done (fst (Nary.run result_mapper n (Nary.initial n) tr)))
    = n ∧
  (Nary.is_done (fst (Nary.run result_mapper n (Nary.initial n) tr)) !! j
     = Some true ↔ j < n ∧ OnCompleted j ∈ tr).
Proof. destruct (run_flags n tr) as [Hlen Hflags]. split; [done|apply Hflags]. Qed.

(** X6.  Once every one of the N >= 1 sources has completed, the observer
    has been closed, whatever was pushed and in whatever order. *)
Theorem closed_once_all_completed n tr :
  0 < n →
  (∀ j, j < n → OnCompleted j ∈ tr) →
  Close ∈ Nary.observed result_mapper n tr.
Proof.
  intros Hn Hall. apply run_all_done; [done|].
  destruct (run_flags n tr) as [Hlen Hflags].
  apply all_spec. intros j b Hj.
  pose proof (lookup_lt_Some _ _ _ Hj) as Hlt. rewrite Hlen in Hlt.
  destruct (Hflags j) as [_ Hset]. rewrite Hset in Hj by auto. by simplify_eq.
Qed.

End store.

(** ** Failures of the sources *)

Section failures.
Context {V R E : Type}.
Variable result_mapper : list V → outcome R E.
Implicit Types (st : @Nary.state V) (tr : list (event V E)).
Implicit Types (out : list (notification R E)).

Lemma throws_app out1 out2 :
  throws (out1 ++ out2) = throws out1 ++ throws out2.
Proof. apply omap_app. Qed.

Lemma errors_app n tr1 tr2 :
  errors n (tr1 ++ tr2) = errors n tr1 ++ errors n tr2.
Proof. apply omap_app. Qed.

Lemma next_throws i st :
  (∀ vs, ∃ r, result_mapper vs = Returns r) →
  throws (snd (Nary.next result_mapper i st)) = [].
Proof.
  intros Hret. unfold Nary.next. destruct (Nary.all_queued _); simpl.
  - destruct (Hret (omap head (Nary.queues st))) as [r Hr].
    unfold Nary.pop_heads. by rewrite Hr.
  - by destruct (Nary.others_done _ _).
Qed.

Lemma done_throws i st : throws (snd (Nary.done (R:=R) (E:=E) i st)) = [].
Proof. unfold Nary.done. by destruct (all _). Qed.

(** One notification: the failure of a subscribed source is forwarded,
    and nothing else fails the observer unless the combiner raises. *)
Lemma deliver_throws n st ev :
  errors n [ev] `sublist_of` throws (snd (Nary.deliver result_mapper n st ev)) ∧
  ((∀ vs, ∃ r, result_mapper vs = Returns r) →
   throws (snd (Nary.deliver result_mapper n st ev)) = errors n [ev]).
Proof.
  unfold Nary.deliver. destruct ev as [i x|i ex|i]; simpl.
  - split; [apply sublist_nil_l|]. intros Hret.
    destruct (Nary.subscribed n i); [|done]. by apply next_throws.
  - by destruct (Nary.subscribed n i).
  - split; [apply sublist_nil_l|]. intros _.
    destruct (Nary.subscribed n i); [|done]. apply done_throws.
Qed.

Lemma run_throws n st tr :
  errors n tr `sublist_of` throws (snd (Nary.run result_mapper n st tr)) ∧
  ((∀ vs, ∃ r, result_mapper vs = Returns r) →
   throws (snd (Nary.run result_mapper n st tr)) = errors n tr).
Proof.
  induction tr as [|ev tr IH] using rev_ind; [done|].
  rewrite run_snoc, errors_app.
  destruct (Nary.run result_mapper n st tr) as [st1 out1].
  destruct (deliver_throws n st1 ev) as [Hsub Heq].
  destruct (Nary.deliver result_mapper n st1 ev) as [st2 out2].
  simpl in *. rewrite throws_app. destruct IH as [IHsub IHeq]. split.
  - by apply sublist_app.
  - intros Hret. by rewrite IHeq, Heq.
Qed.

(** X7.  Every failure of a subscribed source is forwarded to the
    observer, in the order of arrival and whatever is buffered: none is
    dropped, delayed past another or held back after a completion. *)
Theorem source_failures_are_all_forwarded n st tr :
  errors n tr `sublist_of` throws (snd (Nary.run result_mapper n st tr)).
Proof. apply run_throws. Qed.

(** X8.  With a combiner that never raises, the failures that reach the
    observer are exactly those of the subscribed sources, in order: zip
    fails the observer for no reason of its own. *)
Theorem no_failure_but_those_of_the_sources n st tr :
  (∀ vs, ∃ r, result_mapper vs = Returns r) →
  throws (snd (Nary.run result_mapper n st tr)) = errors n tr.
Proof. apply run_throws. Qed.

(** X9.  The failure of a source changes nothing in the store: the queues
    and the flags end as they would without the failures, and the values
    sent are the same. *)
Theorem source_failures_leave_store_untouched n st tr :
  fst (Nary.run result_mapper n st (without_errors tr))
    = fst (Nary.run result_mapper n st tr) ∧
  sends (snd (Nary.run result_mapper n st (without_errors tr)))
    = sends (snd (Nary.run result_mapper n st tr)).
Proof.
  revert st. induction tr as [|ev tr IH]; intros st; [done|].
  destruct ev as [i x|i ex|i].
  - change (without_errors (OnNext i x :: tr))
      with (OnNext i x :: without_errors tr). simpl.
    destruct (Nary.deliver result_mapper n st (OnNext i x)) as [st1 out1].
    specialize (IH st1).
    destruct (Nary.run result_mapper n st1 (without_errors tr)) as [st2 out2].
    destruct (Nary.run result_mapper n st1 tr) as [st3 out3].
    simpl in *. rewrite !sends_app. destruct IH as [-> ->]. done.
  - change (without_errors (OnError i ex :: tr)) with (without_errors tr).
    simpl. unfold Nary.deliver. simpl. specialize (IH st).
    destruct (Nary.subscribed n i);
      destruct (Nary.run result_mapper n st (without_errors tr)) as [st2 out2];
      destruct (Nary.run result_mapper n st tr) as [st3 out3];
      simpl in *; by destruct IH as [-> ->].
  - change (without_errors (OnCompleted i :: tr))
      with (OnCompleted i :: without_errors tr). simpl.
    destruct (Nary.deliver result_mapper n st (OnCompleted i)) as [st1 out1].
    specialize (IH st1).
    destruct (Nary.run result_mapper n st1 (without_errors tr)) as [st2 out2].
    destruct (Nary.run result_mapper n st1 tr) as [st3 out3].
    simpl in *. rewrite !sends_app. destruct IH as [-> ->]. done.
Qed.

(** The store of a single source: its queue is empty between two
    notifications. *)
Lemma run_single_source flags (xs : list V) :
  Nary.run result_mapper 1 (Nary.State [[]] flags) (map (OnNext (E:=E) 0) xs)
    = (Nary.State [[]] flags, map (λ x, forward (result_mapper [x])) xs).
Proof.
  induction xs as [|x xs IH]; [done|]. simpl.
  unfold Nary.deliver, Nary.subscribed. simpl.
  unfold Nary.send, Nary.next. simpl.
  destruct (result_mapper [x]); by rewrite IH.
Qed.

(** X10.  The zip of a single source buffers nothing: every value is
    combined when it arrives, and the observer gets the outcome of the
    combiner on that value alone, result or failure. *)
Theorem single_source_maps_each_value (xs : list V) :
  Nary.observed result_mapper 1 (map (OnNext 0) xs)
    = map (λ x, forward (result_mapper [x])) xs.
Proof.
  unfold Nary.observed, Nary.initial. simpl. by rewrite run_single_source.
Qed.

End failures.

(** ** The whole of what the observer is told *)

Section whole.
Context {V R E : Type}.
Variable result_mapper : list V → outcome R E.
Implicit Types (st : @Nary.state V) (tr : list (event V E)).
Implicit Types (out : list (notification R E)) (ss : list (list V)).

Lemma sends_cons o out : sends (o :: out) = sends [o] ++ sends out.
Proof. apply (sends_app [o] out). Qed.

Lemma throws_cons o out : throws (o :: out) = throws [o] ++ throws out.
Proof. apply (throws_app [o] out). Qed.

Lemma sends_none out : (∀ r, Send r ∉ out) → sends out = [].
Proof.
  induction out as [|o out IH]; intros Hno; [done|].
  rewrite sends_cons, IH.
  - destruct o as [r| |]; try done. destruct (Hno r). apply elem_of_cons. auto.
  - intros r Hr. apply (Hno r). apply elem_of_cons. auto.
Qed.

Lemma only_closes out :
  throws out = [] → sends out = [] → out = replicate (length out) Close.
Proof.
  induction out as [|o out IH]; [done|].
  rewrite sends_cons, throws_cons. intros Ht Hs.
  apply app_eq_nil in Ht as [Ht1 Ht2]. apply app_eq_nil in Hs as [Hs1 Hs2].
  destruct o as [r| |]; try done. simpl. f_equal. by apply IH.
Qed.

Lemma closes_last_tail o out : closes_last (o :: out) → closes_last out.
Proof. intros Hlast pre post ->. by apply (Hlast (o :: pre) post). Qed.

(** Notifications without a failure, and without a value after a
    completion: the values, then completions only. *)
Lemma sends_then_closes out :
  throws out = [] → closes_last out →
  out = map Send (sends out)
        ++ replicate (length out - length (sends out)) Close.
Proof.
  induction out as [|o out IH]; [done|].
  rewrite throws_cons. intros Ht Hlast.
  apply app_eq_nil in Ht as [Ht1 Ht2].
  destruct o as [r| |]; try done.
  - rewrite sends_cons. simpl. f_equal.
    apply IH; [done|by eapply closes_last_tail].
  - assert (sends out = []) as Hs.
    { apply sends_none. by apply (Hlast [] out). }
    rewrite sends_cons, Hs. simpl. f_equal. by apply only_closes.
Qed.

Lemma errors_none n tr :
  (∀ i ex, i < n → OnError i ex ∉ tr) → errors n tr = [].
Proof.
  induction tr as [|ev tr IH]; intros Hno; [done|].
  change (ev :: tr) with ([ev] ++ tr). rewrite errors_app, IH.
  - destruct ev as [i x|i ex|i]; try done. simpl.
    unfold Nary.subscribed. case_bool_decide as Hi; [|done].
    destruct (Hno i ex Hi). apply elem_of_cons. auto.
  - intros i ex Hi Hin. apply (Hno i ex Hi). apply elem_of_cons. auto.
Qed.

Lemma emitted_by_spec i tr ev :
  ev ∈ emitted_by i tr ↔ ev ∈ tr ∧ origin ev = i.
Proof.
  unfold emitted_by. rewrite !list_elem_of_In, filter_In.
  by rewrite Nat.eqb_eq.
Qed.

Lemma plays_errors ss tr : plays ss tr → errors (length ss) tr = [].
Proof.
  intros Hplays. apply errors_none. intros i ex Hi Hin.
  destruct (lookup_lt_is_Some_2 ss i Hi) as [s Hs].
  assert (OnError i ex ∈ emitted_by i tr) as Hem
    by (by apply emitted_by_spec).
  rewrite (Hplays i s Hs) in Hem.
  apply elem_of_app in Hem as [Hem|Hem].
  - apply list_elem_of_In, in_map_iff in Hem as (x & Hx & _). done.
  - by apply list_elem_of_singleton in Hem.
Qed.

Lemma plays_completed ss tr j :
  plays ss tr → j < length ss → OnCompleted j ∈ tr.
Proof.
  intros Hplays Hj. destruct (lookup_lt_is_Some_2 ss j Hj) as [s Hs].
  apply (emitted_by_spec j). rewrite (Hplays j s Hs).
  apply elem_of_app. right. by apply list_elem_of_singleton.
Qed.

(** X11.  When N >= 1 sources push the sequences [ss] and complete, none
    pushing after its completion, and the combiner [f] never raises, the
    observer is told exactly this: the result of [f] on each of the
    [min_length ss] aligned tuples, in order, and then completions only, at
    least one.  No failure, and nothing between or after. *)
Theorem completed_sources_give_results_then_closes (f : list V → R) ss tr :
  ss ≠ [] →
  plays ss tr →
  silent_once_completed tr →
  (∀ vs, result_mapper vs = Returns (f vs)) →
  ∃ c, 0 < c ∧
    Nary.observed result_mapper (length ss) tr
      = map Send (map f (tuples (min_length ss) ss)) ++ replicate c Close.
Proof.
  intros Hne Hplays Hsilent Hret.
  assert (0 < length ss) as Hn by (destruct ss; [done|simpl; lia]).
  pose proof (sends_observed result_mapper (length ss) tr Hn) as Hsends.
  rewrite (plays_histories _ _ Hplays) in Hsends.
  rewrite (returned_tuples result_mapper f) in Hsends by done.
  destruct (run_tidy result_mapper (length ss) tr Hn Hsilent)
    as (_ & _ & _ & _ & Hlast).
  destruct (run_throws result_mapper (length ss)
              (Nary.initial (length ss)) tr) as [_ Hthrows].
  specialize (Hthrows (λ vs, ex_intro _ (f vs) (Hret vs))).
  rewrite (plays_errors _ _ Hplays) in Hthrows.
  assert (Close ∈ Nary.observed result_mapper (length ss) tr) as Hclose.
  { apply run_all_done; [done|].
    destruct (run_flags result_mapper (length ss) tr) as [Hlen Hflags].
    apply all_spec. intros j b Hj.
    pose proof (lookup_lt_Some _ _ _ Hj) as Hlt. rewrite Hlen in Hlt.
    destruct (Hflags j) as [_ Hset].
    rewrite Hset in Hj by (split; [done|by eapply plays_completed]).
    by simplify_eq. }
  fold (Nary.observed result_mapper (length ss) tr) in Hlast, Hthrows.
  pose proof (sends_then_closes _ Hthrows Hlast) as Hshape.
  rewrite Hsends in Hshape. revert Hshape Hclose.
  generalize (Nary.observed result_mapper (length ss) tr). intros out.
  generalize (length out - length (map f (tuples (min_length ss) ss))).
  intros c -> Hclose. exists c. split; [|done].
  destruct c as [|c]; [|lia]. simpl in Hclose. rewrite app_nil_r in Hclose.
  apply list_elem_of_In, in_map_iff in Hclose as (r & Hr & _). done.
Qed.

(** A starved store stays starved, and nothing more is sent from it. *)
Lemma run_starved n tr1 tr2 :
  0 < n →
  silent_once_completed (tr1 ++ tr2) →
  starved (fst (Nary.run result_mapper n (Nary.initial n) tr1)) →
  starved (fst (Nary.run result_mapper n (Nary.initial n) (tr1 ++ tr2))) ∧
  sends (snd (Nary.run result_mapper n (Nary.initial n) (tr1 ++ tr2)))
    = sends (snd (Nary.run result_mapper n (Nary.initial n) tr1)).
Proof.
  intros Hn Hsilent Hstarved.
  induction tr2 as [|ev tr2 IH] using rev_ind; [by rewrite app_nil_r|].
  rewrite app_assoc in Hsilent.
  apply silent_once_completed_snoc in Hsilent as [Hsilent Hev].
  specialize (IH Hsilent). destruct IH as [Hst Hsends].
  destruct (run_tidy result_mapper n (tr1 ++ tr2) Hn Hsilent)
    as (Hq & Hd & Hflags & _).
  destruct (run_buffered result_mapper n (tr1 ++ tr2) Hn) as (m & Hbuf & _).
  apply buffered_empty_queue in Hbuf.
  rewrite app_assoc, run_snoc.
  destruct (Nary.run result_mapper n (Nary.initial n) (tr1 ++ tr2))
    as [st out].
  simpl in *.
  destruct (deliver_completion result_mapper n st ev)
    as (_ & Hkeep & _); [congruence|done| |].
  { intros i x Heq Hi. by apply (Hev i x Heq), Hflags. }
  destruct (Hkeep Hst) as [Hst' Hno].
  destruct (Nary.deliver result_mapper n st ev) as [st' out'].
  simpl in *. split; [done|].
  by rewrite sends_app, (sends_none out'), app_nil_r.
Qed.

(** X12.  Once a subscribed source has completed having pushed no more
    values than any other, no tuple can be formed any more: whatever
    follows, as long as no source pushes after its own completion, no
    further value is sent. *)
Theorem nothing_sent_once_starved n j tr1 tr2 :
  j < n →
  OnCompleted j ∈ tr1 →
  (∀ i, i < n → length (received j tr1) ≤ length (received i tr1)) →
  silent_once_completed (tr1 ++ tr2) →
  sends (Nary.observed result_mapper n (tr1 ++ tr2))
    = sends (Nary.observed result_mapper n tr1).
Proof.
  intros Hj Hdone Hleast Hsilent.
  assert (0 < n) as Hn by lia.
  apply run_starved; [done..|].
  exists j. split; [by apply run_flags|].
  destruct (run_buffered result_mapper n tr1 Hn) as (m & Hbuf & _).
  destruct Hbuf as (-> & _ & j' & h' & Hj' & Hh').
  apply histories_lookup_inv in Hj' as [Hj' ->].
  rewrite lookup_map_drop, histories_lookup by done. simpl. f_equal.
  apply drop_ge. specialize (Hleast j' Hj'). lia.
Qed.

Lemma outcomes_app out1 out2 :
  outcomes (out1 ++ out2) = outcomes out1 ++ outcomes out2.
Proof. apply omap_app. Qed.

Lemma outcomes_forward (o : outcome R E) : outcomes [forward o] = [o].
Proof. by destruct o. Qed.

(** X13.  As long as no subscribed source fails, the results and the
    failures that reach the observer are exactly the outcomes of the
    combiner on the aligned tuples, one for each complete tuple and in
    order: a tuple on which the combiner raised is consumed, and the
    tuples after it are combined all the same. *)
Theorem every_tuple_is_combined_once n tr :
  0 < n →
  errors n tr = [] →
  outcomes (Nary.observed result_mapper n tr)
    = map result_mapper
        (tuples (min_length (histories n tr)) (histories n tr)).
Proof.
  intros Hn. unfold Nary.observed.
  induction tr as [|ev tr IH] using rev_ind; intros Herr.
  - rewrite histories_nil. destruct n as [|n]; [lia|].
    simpl. by destruct n.
  - rewrite errors_app in Herr. apply app_eq_nil in Herr as [Herr Hev].
    specialize (IH Herr).
    destruct (run_buffered result_mapper n tr Hn) as (m & Hbuf & _).
    rewrite <- (buffered_min_length _ _ _ Hbuf) in IH.
    rewrite run_snoc.
    destruct (Nary.run result_mapper n (Nary.initial n) tr) as [st out].
    simpl in Hbuf, IH.
    destruct (Nary.deliver result_mapper n st ev) as [st' out'] eqn:Hstep.
    simpl. rewrite outcomes_app, IH. unfold Nary.deliver in Hstep.
    destruct (Nary.subscribed n (origin ev)) eqn:Hsub.
    + destruct ev as [i x|i ex|i].
      * rewrite histories_snoc_next.
        pose proof (send_buffered result_mapper m _ i x st Hbuf) as Hsend.
        rewrite Hstep in Hsend. simpl in Hsend.
        destruct Hbuf as (_ & Hle & _).
        destruct Hsend as [_ [[Hbuf' ->]|[Hbuf' Hout]]].
        -- rewrite <- (buffered_min_length _ _ _ Hbuf').
           rewrite tuples_S, map_app, tuples_alter_app by done.
           by rewrite outcomes_forward.
        -- rewrite <- (buffered_min_length _ _ _ Hbuf').
           rewrite tuples_alter_app by done.
           destruct Hout as [-> | ->]; simpl; by rewrite app_nil_r.
      * simpl in Hsub, Hev. by rewrite Hsub in Hev.
      * rewrite histories_snoc_silent by done.
        rewrite <- (buffered_min_length _ _ _ Hbuf).
        assert (outcomes out' = []) as ->; [|by rewrite app_nil_r].
        replace out' with (snd (Nary.done (R:=R) (E:=E) i st))
          by (by rewrite Hstep).
        unfold Nary.done. by destruct (all _).
    + simplify_eq. simpl. rewrite app_nil_r.
      assert (histories n (tr ++ [ev]) = histories n tr) as ->.
      { destruct ev as [i x|i ex|i]; [|by apply histories_snoc_silent..].
        rewrite histories_snoc_next. simpl in Hsub.
        unfold Nary.subscribed in Hsub. apply bool_decide_eq_false in Hsub.
        apply alter_beyond. rewrite length_histories. lia. }
      by rewrite <- (buffered_min_length _ _ _ Hbuf).
Qed.

End whole.

(** ** The cursor of the list path *)

Section list_cursor.
Context {V R E : Type}.
Variable result_mapper : list V → outcome R E.
Variable second : list V.
Implicit Types (tr : list (@ListZip.input V E)) (vs : list V) (index : nat).

Lemma list_run_cons index ev tr :
  ListZip.run result_mapper second index (ev :: tr) =
    let '(index1, out1) := ListZip.deliver result_mapper second index ev in
    let '(index2, out2) := ListZip.run result_mapper second index1 tr in
    (index2, out1 ++ out2).
Proof. done. Qed.

Lemma pushed_cons (ev : @ListZip.input V E) tr :
  pushed (ev :: tr) = pushed [ev] ++ pushed tr.
Proof. apply (omap_app _ [ev] tr). Qed.

(** One notification of the source: one call on the observer, and the
    cursor moves by one for a value met by an item, and not otherwise. *)
Lemma list_deliver_spec index ev :
  length (snd (ListZip.deliver result_mapper second index ev)) = 1 ∧
  (index ≤ length second →
   fst (ListZip.deliver result_mapper second index ev)
     = (index + length (pushed [ev])) `min` length second).
Proof.
  destruct ev as [left_|ex|]; cbn -[Nat.min ListZip.send];
    [|split; [done|lia]..].
  destruct (decide (index < length second)) as [Hlt|Hge].
  - destruct (lookup_lt_is_Some_2 second index Hlt) as [right_ Hr].
    rewrite (list_send_in_range _ _ left_ right_) by done.
    cbn -[Nat.min]. split; [done|lia].
  - rewrite list_send_exhausted by lia. cbn -[Nat.min]. split; [done|lia].
Qed.

Lemma list_run_cursor index tr :
  index ≤ length second →
  fst (ListZip.run result_mapper second index tr)
    = (index + length (pushed tr)) `min` length second.
Proof.
  revert index. induction tr as [|ev tr IH]; intros index Hindex.
  - cbn -[Nat.min]. lia.
  - rewrite list_run_cons, pushed_cons, length_app.
    destruct (list_deliver_spec index ev) as [_ Hfst].
    specialize (Hfst Hindex).
    destruct (ListZip.deliver result_mapper second index ev)
      as [index1 out1].
    cbn -[Nat.min] in Hfst. specialize (IH index1).
    destruct (ListZip.run result_mapper second index1 tr) as [index2 out2].
    cbn -[Nat.min] in *. rewrite IH by lia. lia.
Qed.

(** Values met by the cursor, whatever the combiner makes of them. *)
Lemma list_run_outcomes index vs :
  index ≤ length second →
  ListZip.run result_mapper second index (map ListZip.Value vs) =
    ((index + length vs) `min` length second,
     zip_with (paired result_mapper) vs (drop index second) ++
     replicate (length vs - (length second - index)) Close).
Proof.
  revert index. induction vs as [|v vs IH]; intros index Hindex.
  - cbn -[Nat.min Nat.sub]. f_equal. lia.
  - destruct (decide (index < length second)) as [Hlt|Hge].
    + destruct (lookup_lt_is_Some_2 second index Hlt) as [r Hr].
      cbn -[Nat.min Nat.sub].
      rewrite (list_send_in_range _ _ v r) by done.
      rewrite (IH (index + 1)) by lia.
      rewrite (drop_S second r index Hr).
      replace (index + 1) with (S index) by lia.
      cbn -[Nat.min Nat.sub]. f_equal; [lia|]. unfold paired at 2.
      do 3 f_equal. lia.
    + change (map ListZip.Value (v :: vs))
        with ([ListZip.Value (E:=E) v] ++ map ListZip.Value vs).
      rewrite drop_ge, zip_with_nil_r by lia.
      replace (length second - index) with 0 by lia.
      rewrite list_run_app, Nat.sub_0_r. cbn -[Nat.min Nat.sub].
      rewrite list_send_exhausted, list_run_exhausted by lia.
      cbn -[Nat.min Nat.sub]. f_equal. lia.
Qed.

(** X14.  The list path tells the observer exactly one thing for each
    notification of the source: it buffers nothing and swallows nothing,
    whatever the cursor. *)
Theorem list_zip_one_call_per_notification index tr :
  length (snd (ListZip.run result_mapper second index tr)) = length tr.
Proof.
  revert index. induction tr as [|ev tr IH]; intros index; [done|].
  rewrite list_run_cons.
  destruct (list_deliver_spec index ev) as [Hone _].
  destruct (ListZip.deliver result_mapper second index ev) as [index1 out1].
  specialize (IH index1).
  destruct (ListZip.run result_mapper second index1 tr) as [index2 out2].
  simpl in *. rewrite length_app. lia.
Qed.

(** X15.  The cursor is the number of values the source has pushed, capped
    at the length of the list: it moves for a value whether the combiner
    returns or raises, never for a failure or a completion of the source,
    never back and never past the end. *)
Theorem list_cursor_counts_values tr :
  fst (ListZip.run result_mapper second 0 tr)
    = length (pushed tr) `min` length second.
Proof. rewrite list_run_cursor by lia. done. Qed.

(** X16.  On the list path, when the source pushes the values [vs], the
    observer is told the outcome of the combiner on each of the first
    [min k L] pairs, a result or a failure, and then one completion for
    each value beyond the list.  A pair on which the combiner raised is
    consumed: the next value meets the next item. *)
Theorem list_zip_forwards_every_outcome vs :
  ListZip.observed result_mapper second (map ListZip.Value vs)
    = zip_with (paired result_mapper) vs second
      ++ replicate (length vs - length second) Close.
Proof.
  unfold ListZip.observed. rewrite list_run_outcomes by lia.
  cbn -[Nat.sub]. by rewrite drop_0, Nat.sub_0_r.
Qed.

(** X17.  A failure or a completion of the source is forwarded and
    changes nothing else: the cursor and the values sent are those of the
    pushed values alone, so the values that follow are still combined. *)
Theorem list_zip_goes_on_after_terminals index tr :
  fst (ListZip.run result_mapper second index tr)
    = fst (ListZip.run result_mapper second index
             (map ListZip.Value (pushed tr))) ∧
  sends (snd (ListZip.run result_mapper second index tr))
    = sends (snd (ListZip.run result_mapper second index
                    (map ListZip.Value (pushed tr)))).
Proof.
  revert index. induction tr as [|ev tr IH]; intros index; [done|].
  rewrite list_run_cons. destruct ev as [left_|ex|].
  - change (pushed (ListZip.Value left_ :: tr)) with (left_ :: pushed tr).
    change (map ListZip.Value (left_ :: pushed tr))
      with (ListZip.Value (E:=E) left_ :: map ListZip.Value (pushed tr)).
    rewrite list_run_cons.
    destruct (ListZip.deliver result_mapper second index
                (ListZip.Value left_)) as [index1 out1].
    specialize (IH index1).
    destruct (ListZip.run result_mapper second index1 tr) as [index2 out2].
    destruct (ListZip.run result_mapper second index1 _) as [index3 out3].
    simpl in *. rewrite !sends_app. by destruct IH as [-> ->].
  - change (pushed (ListZip.Failure ex :: tr)) with (pushed tr).
    specialize (IH index). cbn.
    destruct (ListZip.run result_mapper second index tr) as [index2 out2].
    by destruct (ListZip.run result_mapper second index _) as [index3 out3].
  - change (pushed (ListZip.Completion :: tr)) with (pushed tr).
    specialize (IH index). cbn.
    destruct (ListZip.run result_mapper second index tr) as [index2 out2].
    by destruct (ListZip.run result_mapper second index _) as [index3 out3].
Qed.

End list_cursor.

(** ** The choice of the path and the built-in combiner *)


(** X19.  With a single source and no [result_mapper], the built-in
    [list] is called on each value alone: a list is sent as a list of the
    same items, not wrapped into a tuple of one, and a value that is not
    iterable fails the observer with a [TypeError]. *)
Theorem default_combiner_on_a_single_source xs ins :
  Py.observed (Py.zip [Py.AsyncSource] None) (map (OnNext 0) xs) ins
    = map (λ x, match x with
                | Py.List items => Send (Py.List items)
                | _ => Throw Py.TypeError
                end) xs.
Proof.
  simpl. unfold Nary.observed, Nary.initial. simpl.
  rewrite run_single_source. simpl. apply map_ext. by intros [|z|items].
Qed.

(** ** The further properties on concrete sources *)

Lemma queues_hold_unconsumed_values_witness :
  Nary.queues
    (fst (Nary.run Scenario.sum 2 (Nary.initial 2)
            [OnNext 0 1%Z; OnNext 0 2%Z; OnNext 1 10%Z]))
    = [[2%Z]; []] ∧
  ∃ j, j < 2 ∧
    Nary.queues
      (fst (Nary.run Scenario.sum 2 (Nary.initial 2)
              [OnNext 0 1%Z; OnNext 0 2%Z; OnNext 1 10%Z])) !! j
      = Some [].
Proof.
  apply (queues_hold_unconsumed_values Scenario.sum 2
           [OnNext 0 1%Z; OnNext 0 2%Z; OnNext 1 10%Z]).
  lia.
Defined.

Lemma sends_bounded_by_every_source_witness :
  length (sends (Nary.observed Scenario.sum 2 Scenario.interleaved))
    ≤ length (received 1 Scenario.interleaved).
Proof.
  apply (sends_bounded_by_every_source Scenario.sum 2 Scenario.interleaved 1).
  lia.
Defined.

Lemma sends_independent_of_interleaving_witness :
  sends (Nary.observed Scenario.sum 2
           [OnNext 0 1%Z; OnNext 1 10%Z; OnCompleted 1; OnNext 0 2%Z])
  = sends (Nary.observed Scenario.sum 2
             [OnNext 1 10%Z; OnNext 0 1%Z; OnNext 0 2%Z]).
Proof.
  apply (sends_independent_of_interleaving Scenario.sum 2).
  intros i Hi. destruct i as [|[|i]]; [reflexivity|reflexivity|lia].
Defined.

Lemma closed_once_all_completed_witness :
  Close ∈ Nary.observed Scenario.sum 2 Scenario.interleaved.
Proof.
  apply (closed_once_all_completed Scenario.sum 2 Scenario.interleaved);
    [lia|].
  intros j Hj. apply list_elem_of_In.
  destruct j as [|[|j]]; [simpl; auto 10..|lia].
Defined.

Lemma no_failure_but_those_of_the_sources_witness :
  throws
    (snd (Nary.run Scenario.sum 2 (Nary.initial 2)
            [OnNext 0 1%Z; OnError 1 Scenario.ValueError; OnNext 1 10%Z;
             OnError 5 Scenario.ValueError]))
  = [Scenario.ValueError].
Proof.
  apply (no_failure_but_those_of_the_sources Scenario.sum 2 (Nary.initial 2)
           [OnNext 0 1%Z; OnError 1 Scenario.ValueError; OnNext 1 10%Z;
            OnError 5 Scenario.ValueError]).
  intros vs. by eexists.
Defined.

Lemma completed_sources_give_results_then_closes_witness :
  ∃ c, 0 < c ∧
    Nary.observed Scenario.sum 2 Scenario.interleaved
      = map Send [11; 22]%Z ++ replicate c Close.
Proof.
  apply (completed_sources_give_results_then_closes Scenario.sum
           (foldr Z.add 0%Z) [[1; 2; 3]; [10; 20]]%Z Scenario.interleaved).
  - discriminate.
  - exact interleaved_plays.
  - exact interleaved_silent.
  - reflexivity.
Defined.

Lemma abandoned_silent :
  silent_once_completed
    ([OnNext 1 10%Z; OnCompleted (V:=Z) (E:=Scenario.error) 0]
     ++ [OnNext 2 5%Z; OnNext 1 20%Z]).
Proof.
  intros pre i x post Heq Hin. simpl in Heq.
  do 5 (destruct pre as [|? pre]; simplify_eq/=;
        try (repeat (apply elem_of_cons in Hin as [Hin|Hin]; [discriminate|]);
             by apply elem_of_nil in Hin)).
Qed.

Lemma nothing_sent_once_starved_witness :
  sends (Nary.observed Scenario.sum 3
           ([OnNext 1 10%Z; OnCompleted 0] ++ [OnNext 2 5%Z; OnNext 1 20%Z]))
  = sends (Nary.observed Scenario.sum 3 [OnNext 1 10%Z; OnCompleted 0]).
Proof.
  apply (nothing_sent_once_starved Scenario.sum 3 0
           [OnNext 1 10%Z; OnCompleted 0] [OnNext 2 5%Z; OnNext 1 20%Z]).
  - lia.
  - apply list_elem_of_In. simpl. auto.
  - intros i Hi. simpl. lia.
  - exact abandoned_silent.
Defined.

Lemma every_tuple_is_combined_once_witness :
  outcomes
    (Nary.observed Scenario.fussy 2
       [OnNext 0 0%Z; OnNext 1 5%Z; OnNext 0 1%Z; OnCompleted 0;
        OnNext 1 6%Z])
  = [Raises Scenario.ValueError; Returns 7%Z].
Proof.
  apply (every_tuple_is_combined_once Scenario.fussy 2
           [OnNext 0 0%Z; OnNext 1 5%Z; OnNext 0 1%Z; OnCompleted 0;
            OnNext 1 6%Z]); [lia|reflexivity].
Defined.
